(** * GoBase: struct metadata extraction, field assignment and HTTP parameter binding

    A shallow embedding of
    - [pkg/utils/fields/struct_metadata.go] ([processType], [StructMetadata]),
    - [pkg/http/parameters/decode.go] (the JSON body, query and header passes),
    - the assignment engine [AssignToField] exercised by
      [pkg/structs/assign_test.go].

    Go panics are modelled by an explicit [Panicked] outcome, Go's mutable
    maps by state passing over [gmap]. *)

From Stdlib Require Import ZArith Ascii String List Lia.
From stdpp Require Import base option list strings gmap fin_maps.

Set Warnings "-register-all".
Open Scope string_scope.
Open Scope Z_scope.

(** ** Outcomes of Go calls that may panic *)

Inductive Result (A : Type) : Type :=
| Done (a : A)
| Panicked (msg : string).
Arguments Done {A} a.
Arguments Panicked {A} msg.

Definition bindR {A B} (r : Result A) (k : A -> Result B) : Result B :=
  match r with
  | Done a => k a
  | Panicked msg => Panicked msg
  end.

(** ** reflect.Type as far as the walk and the dispatch look at it *)

Inductive IntWidth := W8 | W16 | W32 | W64.

Definition Bits (w : IntWidth) : Z :=
  match w with W8 => 8 | W16 => 16 | W32 => 32 | W64 => 64 end.

Inductive FloatWidth := F32 | F64.

(** How the assignment engine sees a struct type: [time.Time], a type
    that defines [UnmarshalText], or any other struct. *)
Inductive StructClass := PlainStruct | TimeInstant | TextDecodable.

(** reflect.StructField, restricted to the members [processType] reads. *)
Record StructField (T : Type) : Type := mkField {
  Name : string;
  Type_ : T;
  Tag : string;
  Anonymous : bool
}.
Arguments mkField {T} _ _ _ _.
Arguments Name {T} _.
Arguments Type_ {T} _.
Arguments Tag {T} _.
Arguments Anonymous {T} _.

Inductive GoType : Type :=
| TString
| TInt (w : IntWidth)
| TUint (w : IntWidth)
| TFloat (w : FloatWidth)
| TBool
| TUintptr
| TMap (key elem : GoType)
| TSlice (elem : GoType)
| TPtr (elem : GoType)
| TStruct (class : StructClass) (fields : list (StructField GoType)).

(** ** FieldMetadata and the tag pattern *)

Record FieldMetadata : Type := mkMeta {
  MType : GoType;
  Tags : gmap string string;
  MAnonymous : list string
}.

Abbreviation Table := (gmap string FieldMetadata).

(** [\w] of Go's regexp syntax: ASCII letters, digits and underscore. *)
Definition isWord (c : ascii) : bool :=
  let n := nat_of_ascii c in
  ((48 <=? n) && (n <=? 57) || (65 <=? n) && (n <=? 90)
   || (97 <=? n) && (n <=? 122) || (n =? 95))%nat.

Definition isColon (c : ascii) : bool := (nat_of_ascii c =? 58)%nat.
Definition isQuote (c : ascii) : bool := (nat_of_ascii c =? 34)%nat.

(** Scanner state for [tagMatchRegex]: a run of word bytes, a colon, a
    double quote, any bytes but a double quote, a double quote. The word and
    the value are accumulated in reverse. *)
Inductive TagScan :=
| Idle
| InWord (w : list ascii)
| AfterColon (w : list ascii)
| InValue (w v : list ascii).

Definition revString (l : list ascii) : string := string_of_list_ascii (rev l).

(** One input byte. The leftmost match starts at the first byte of a
    maximal run of word bytes that is followed by a colon, an opening and a
    closing quote; the search resumes after the closing quote. *)
Definition tagStep (st : TagScan) (c : ascii)
  : TagScan * option (string * string) :=
  match st with
  | Idle => (if isWord c then InWord [c] else Idle, None)
  | InWord w =>
      if isWord c then (InWord (c :: w), None)
      else if isColon c then (AfterColon w, None)
      else (Idle, None)
  | AfterColon w =>
      if isQuote c then (InValue w [], None)
      else if isWord c then (InWord [c], None)
      else (Idle, None)
  | InValue w v =>
      if isQuote c then (Idle, Some (revString w, revString v))
      else (InValue w (c :: v), None)
  end.

Fixpoint tagScan (st : TagScan) (s : list ascii) : list (string * string) :=
  match s with
  | [] => []
  | c :: rest =>
      match tagStep st c with
      | (st', Some m) => m :: tagScan st' rest
      | (st', None) => tagScan st' rest
      end
  end.

(** [tagMatchRegex.FindAllStringSubmatch(tag, -1)], as the pairs
    [(match[1], match[2])]. *)
Definition FindAllStringSubmatch (tag : string) : list (string * string) :=
  tagScan Idle (list_ascii_of_string tag).

Definition parseTags (tag : string) : gmap string string :=
  fold_left (fun tags m => <[fst m := snd m]> tags)
            (FindAllStringSubmatch tag) ∅.

(** ** processType *)

Definition notAStruct : string :=
  "Type must be a struct or a pointer to a struct.".

Definition ambiguous (name : string) : string :=
  "field " +:+ name +:+ " is ambiguous".

Fixpoint processType (reflectType : GoType) (fieldsToMetadata : Table)
    (anonymousChain : list string) {struct reflectType} : Result Table :=
  let reflectType :=
    match reflectType with TPtr elem => elem | _ => reflectType end in
  match reflectType with
  | TStruct _ fields =>
      (fix loop (fs : list (StructField GoType)) (fieldsToMetadata : Table)
         {struct fs} : Result Table :=
         match fs with
         | [] => Done fieldsToMetadata
         | field :: rest =>
             if Anonymous field then
               bindR (processType (Type_ field) fieldsToMetadata
                        (anonymousChain ++ [Name field]))
                     (loop rest)
             else
               match fieldsToMetadata !! Name field with
               | Some _ => Panicked (ambiguous (Name field))
               | None =>
                   loop rest
                     (<[Name field :=
                          {| MType := Type_ field;
                             Tags := parseTags (Tag field);
                             MAnonymous := anonymousChain |}]>
                        fieldsToMetadata)
               end
         end) fields fieldsToMetadata
  | _ => Panicked notAStruct
  end.

(** [StructMetadata[T]()]: the function handed to the type cache, run on an
    empty map with an empty chain. The cache stores what it returns. *)
Definition StructMetadata (T : GoType) : Result Table :=
  processType T ∅ [].

(** ** The flattening, stated on its own

    [events t chain] is what the walk of [processType] meets, in declaration
    order and depth first: [Some] descriptor for a field that is not
    anonymous, [None] where a type that is neither a struct nor a pointer to
    a struct stands where the walk needs a struct. *)

Definition deref (t : GoType) : GoType :=
  match t with TPtr elem => elem | _ => t end.

Definition fieldsOf (t : GoType) : list (StructField GoType) :=
  match deref t with TStruct _ fields => fields | _ => [] end.

(** The descriptor recorded for the field [f] met under the ancestors
    [chain]. *)
Definition descriptor (chain : list string) (f : StructField GoType)
  : FieldMetadata :=
  {| MType := Type_ f; Tags := parseTags (Tag f); MAnonymous := chain |}.

Definition describe (chain : list string) (f : StructField GoType)
  : string * FieldMetadata :=
  (Name f, descriptor chain f).

(** [reaches t path f]: [f] is a field that is not anonymous, found in [t]
    after going down the anonymous fields named [path], outermost first. *)
Inductive reaches : GoType -> list string -> StructField GoType -> Prop :=
| reaches_here t f :
    f ∈ fieldsOf t -> Anonymous f = false -> reaches t [] f
| reaches_through t g path f :
    g ∈ fieldsOf t -> Anonymous g = true ->
    reaches (Type_ g) path f -> reaches t (Name g :: path) f.

Fixpoint events (t : GoType) (chain : list string) {struct t}
  : list (option (string * FieldMetadata)) :=
  match match t with TPtr elem => elem | _ => t end with
  | TStruct _ fields =>
      (fix go (fs : list (StructField GoType)) {struct fs}
         : list (option (string * FieldMetadata)) :=
         match fs with
         | [] => []
         | f :: rest =>
             ((if Anonymous f then events (Type_ f) (chain ++ [Name f])
               else [Some (describe chain f)]) ++ go rest)%list
         end) fields
  | _ => [None]
  end.

(** The events of one field, and of a field list. *)
Definition fieldEvents (chain : list string) (f : StructField GoType)
  : list (option (string * FieldMetadata)) :=
  if Anonymous f then events (Type_ f) (chain ++ [Name f])
  else [Some (describe chain f)].

Definition fieldsEvents (chain : list string) (fs : list (StructField GoType))
  : list (option (string * FieldMetadata)) :=
  concat (map (fieldEvents chain) fs).

(** The walk over a list of events: the first [None] and the first name
    that is already a key both stop it. *)
Fixpoint scan (m : Table) (evs : list (option (string * FieldMetadata)))
  : Result Table :=
  match evs with
  | [] => Done m
  | None :: _ => Panicked notAStruct
  | Some (n, md) :: rest =>
      match m !! n with
      | Some _ => Panicked (ambiguous n)
      | None => scan (<[n := md]> m) rest
      end
  end.

(** The leaf fields reached by flattening, with their descriptors; the walk
    is [structural] when it meets structs only. *)
Definition leaves (t : GoType) (chain : list string)
  : list (string * FieldMetadata) :=
  omap id (events t chain).

Definition structural (t : GoType) : bool :=
  forallb (fun e => match e with Some _ => true | None => false end)
          (events t []).

Definition leafNames (t : GoType) : list string := (leaves t []).*1.

(** [n] stands at two places of [l]. *)
Definition occursTwice (n : string) (l : list string) : Prop :=
  exists l1 l2 l3, l = (l1 ++ n :: l2 ++ n :: l3)%list.

(** Two anonymous fields of [T] both bring a leaf field named [n]. *)
Definition embeddedClash (T : GoType) (n : string) : Prop :=
  exists (i j : nat) fi fj,
    i <> j /\ (fieldsOf T !! i = Some fi) /\ (fieldsOf T !! j = Some fj) /\
    (Anonymous fi = true) /\ (Anonymous fj = true) /\
    n ∈ leafNames (Type_ fi) /\ n ∈ leafNames (Type_ fj).

(** The anonymous fields met by the walk, at any depth. *)
Fixpoint embeddedNames (t : GoType) {struct t} : list string :=
  match match t with TPtr elem => elem | _ => t end with
  | TStruct _ fields =>
      (fix go (fs : list (StructField GoType)) {struct fs} : list string :=
         match fs with
         | [] => []
         | f :: rest =>
             ((if Anonymous f then Name f :: embeddedNames (Type_ f)
               else []) ++ go rest)%list
         end) fields
  | _ => []
  end.


(** ** The assignment engine

    The engine is specified by its conversion table and exercised by
    [TestAssign]. The definitions of this part follow that table, and the
    panic and error texts the tests expect. *)

(** *** Base-10 integer text *)

Definition digitVal (c : ascii) : option Z :=
  let n := nat_of_ascii c in
  if ((48 <=? n) && (n <=? 57))%nat then Some (Z.of_nat n - 48) else None.

Definition digitChar (d : Z) : ascii := ascii_of_nat (48 + Z.to_nat d).

Fixpoint parseDigits (acc : Z) (s : string) : option Z :=
  match s with
  | EmptyString => Some acc
  | String c rest =>
      match digitVal c with
      | Some d => parseDigits (10 * acc + d) rest
      | None => None
      end
  end.

(** One digit at least. *)
Definition parseDecimal (s : string) : option Z :=
  match s with
  | EmptyString => None
  | _ => parseDigits 0 s
  end.

Definition isPlus (c : ascii) : bool := (nat_of_ascii c =? 43)%nat.
Definition isMinus (c : ascii) : bool := (nat_of_ascii c =? 45)%nat.

(** An optional sign, then digits. *)
Definition parseSigned (s : string) : option Z :=
  match s with
  | String c rest =>
      if isPlus c then parseDecimal rest
      else if isMinus c then Z.opp <$> parseDecimal rest
      else parseDecimal s
  | EmptyString => None
  end.

(** The digits of [n], most significant first; [fuel] bounds their number. *)
Fixpoint digitsOf (fuel : nat) (n : Z) : string :=
  match fuel with
  | O => EmptyString
  | S fuel' =>
      if n <? 10 then String (digitChar n) EmptyString
      else digitsOf fuel' (n / 10) +:+ String (digitChar (n mod 10)) EmptyString
  end.

(** The base-10 text of an integer: a minus sign for a negative one, no
    sign otherwise, no leading zero. *)
Definition FormatUint (n : Z) : string :=
  digitsOf (S (Z.to_nat (Z.log2 n))) n.

Definition FormatInt (z : Z) : string :=
  if z <? 0 then String (ascii_of_nat 45) (FormatUint (- z)) else FormatUint z.

(** The grammar of integer text, apart from the parsers. *)
Definition isDigit (c : ascii) : bool :=
  let n := nat_of_ascii c in ((48 <=? n) && (n <=? 57))%nat.

Definition allDigits (s : string) : bool :=
  match s with
  | EmptyString => false
  | _ => forallb isDigit (list_ascii_of_string s)
  end.

Definition wellFormedUint (s : string) : bool := allDigits s.

Definition wellFormedInt (s : string) : bool :=
  match s with
  | String c rest =>
      if isPlus c || isMinus c then allDigits rest else allDigits s
  | EmptyString => false
  end.

Definition inRangeInt (w : IntWidth) (z : Z) : bool :=
  (- 2 ^ (Bits w - 1) <=? z) && (z <? 2 ^ (Bits w - 1)).

Definition inRangeUint (w : IntWidth) (z : Z) : bool :=
  (0 <=? z) && (z <? 2 ^ Bits w).

(** *** Values, errors and the dispatch *)

Inductive Cause :=
| FormatError                       (* text that is not a number *)
| RangeError                        (* a number that does not fit the width *)
| BoolError                         (* text that ParseBool refuses *)
| FloatError (description : string)
| TimeError (description : string)
| TextError (description : string)  (* what UnmarshalText returned *)
| JSONError (description : string)
| UnsupportedFieldType.

Record AssignError := mkAssignError {
  errField : string;
  errRaw : string;
  errCause : Cause
}.

(** The texts that [strconv.ParseBool] takes for true and for false. *)
Definition trueTokens : list string :=
  ["1"; "t"; "T"; "TRUE"; "true"; "True"].

Definition falseTokens : list string :=
  ["0"; "f"; "F"; "FALSE"; "false"; "False"].

Section Engine.

(** What a float, a time instant, a text-decoded or a JSON-decoded value
    is made of is left open. *)
Context {Payload : Type}.

Inductive Value :=
| VString (s : string)
| VInt (z : Z)
| VUint (z : Z)
| VBool (b : bool)
| VDecoded (p : Payload)
| VZero                           (* the zero value of any other kind *)
| VNil
| VPtr (v : Value).

(** The conversions taken from Go's libraries: the float and the RFC3339
    parsers, the type's own [UnmarshalText], the JSON decoder. Each one
    returns the decoded value or the description of its failure. *)
Record Decoders := mkDecoders {
  ParseFloat : FloatWidth -> string -> Payload + string;
  ParseTime : string -> Payload + string;
  UnmarshalText : string -> Payload + string;
  JSONUnmarshal : GoType -> string -> Payload + string
}.

Context (dec : Decoders).

(** Modelled from the spec: the conversion rule for signed integers,
    [parse base-10 with sign; value must fit in W bits or fail with a
    range/format error]. *)
Definition ParseInt (s : string) (w : IntWidth) : Z + Cause :=
  match parseSigned s with
  | None => inr FormatError
  | Some z => if inRangeInt w z then inl z else inr RangeError
  end.

(** Modelled from the spec: the conversion rule for unsigned integers,
    [parse base-10, non-negative only; negative input fails]. *)
Definition ParseUint (s : string) (w : IntWidth) : Z + Cause :=
  match parseDecimal s with
  | None => inr FormatError
  | Some z => if inRangeUint w z then inl z else inr RangeError
  end.

(** [strconv.ParseBool] of Go's library: the texts of [trueTokens] are
    true, the texts of [falseTokens] are false, any other text is a syntax
    error. The test of the engine expects the error text of this function
    on a boolean field ([TestAssign], [BoolValue] assigned 2), which is why
    the boolean rule is this parser and not the four tokens of the
    specification. *)
Definition ParseBool (s : string) : bool + Cause :=
  if existsb (String.eqb s) trueTokens then inl true
  else if existsb (String.eqb s) falseTokens then inl false
  else inr BoolError.

Definition decoded (r : Payload + string) (wrap : string -> Cause)
  : Value + Cause :=
  match r with
  | inl p => inl (VDecoded p)
  | inr description => inr (wrap description)
  end.

(** Modelled from the spec: the dispatch of the assignment engine on the
    kind of the field ([setValue] of the engine, whose source is missing).
    A pointer is given a fresh pointee, converted by the same dispatch,
    and is not produced when that conversion fails. A boolean goes through
    [ParseBool], whose error text the test expects. *)
Fixpoint convert (t : GoType) (raw : string) : Value + Cause :=
  match t with
  | TString => inl (VString raw)
  | TInt w =>
      match ParseInt raw w with inl z => inl (VInt z) | inr c => inr c end
  | TUint w =>
      match ParseUint raw w with inl z => inl (VUint z) | inr c => inr c end
  | TFloat w => decoded (ParseFloat dec w raw) FloatError
  | TBool =>
      match ParseBool raw with inl b => inl (VBool b) | inr c => inr c end
  | TStruct TimeInstant _ => decoded (ParseTime dec raw) TimeError
  | TStruct TextDecodable _ => decoded (UnmarshalText dec raw) TextError
  | TStruct PlainStruct _ | TMap _ _ | TSlice _ =>
      decoded (JSONUnmarshal dec t raw) JSONError
  | TPtr elem =>
      match convert elem raw with
      | inl v => inl (VPtr v)
      | inr c => inr c
      end
  | TUintptr => inr UnsupportedFieldType
  end.

(** The zero value of a field, as in a freshly allocated struct. *)
Definition zeroValue (t : GoType) : Value :=
  match t with
  | TString => VString ""
  | TInt _ => VInt 0
  | TUint _ => VUint 0
  | TBool => VBool false
  | TPtr _ | TMap _ _ | TSlice _ => VNil
  | _ => VZero
  end.

(** A struct instance, by the flattened names of its fields: embedded
    fields are merged into the namespace of the enclosing struct. *)
Definition zeroInstance (tbl : Table) : gmap string Value :=
  (fun md => zeroValue (MType md)) <$> tbl.

Definition noSuchField (fieldName : string) : string :=
  "no field '" +:+ fieldName +:+ "' in struct".

Definition notAStructPointer : string := "obj must be a pointer to a struct".

(** Modelled from the spec: [assign(targetPtr, fieldName, rawValue)] of
    the assignment engine, [AssignToField] in the tests; its source is
    missing. [T] is the type the pointer points to and [obj] the struct it
    points to, [None] for a nil pointer. The outcome is a panic, or the
    struct after the call with the error returned, if any. *)
Definition AssignToField (T : GoType) (obj : option (gmap string Value))
    (fieldName stringEncodedValue : string)
  : Result (gmap string Value * option AssignError) :=
  match T, obj with
  | TStruct _ _, Some inst =>
      bindR (StructMetadata T) (fun tbl =>
        match tbl !! fieldName with
        | None => Panicked (noSuchField fieldName)
        | Some md =>
            match convert (MType md) stringEncodedValue with
            | inl v => Done (<[fieldName := v]> inst, None)
            | inr c =>
                Done (inst,
                      Some (mkAssignError fieldName stringEncodedValue c))
            end
        end)
  | _, _ => Panicked notAStructPointer
  end.

End Engine.

Arguments Value : clear implicits.
Arguments Decoders : clear implicits.

(** ** The HTTP parameter binder ([decode.go]) *)

(** The part of [*http.Request] that the passes read. [Header] and
    [URLQuery] are Go maps from a key to its values. *)
Record Request := mkRequest {
  Header : gmap string (list string);
  URLQuery : gmap string (list string);
  Body : string
}.

Inductive Source := FromQuery | FromHeader.

(** The errors of the passes, with the arguments of their format strings. *)
Inductive DecodeError :=
| FailedToDecodeJSON (err : string)
| ExpectingOneValue (src : Source) (name : string) (values : list string)
| FailedToSetValue (src : Source) (name : string) (values : list string)
                   (err : string).

(** A Go [range] over a map visits its entries once each, in an order that
    is not specified: [entries] is such a visit of [m]. *)
Definition rangeOf (m : gmap string (list string))
    (entries : list (string * list string)) : Prop :=
  entries ≡ₚ map_to_list m.

Section Decode.

(** The parameter struct. *)
Context {P : Type}.

(** [reflectutils.AssignToField(params, fieldName, value)]: the struct
    after the call, or the text of the error returned. *)
Variable AssignField : P -> string -> string -> P + string.

(** [json.NewDecoder(body)] with [DisallowUnknownFields], then
    [Decode(&params)]. *)
Variable JSONDecode : string -> P -> P + string.

(** From Go's libraries: [strings.ToLower], [strings.EqualFold],
    [textproto.CanonicalMIMEHeaderKey]. *)
Variable ToLower : string -> string.
Variable EqualFold : string -> string -> bool.
Variable CanonicalMIMEHeaderKey : string -> string.

(** The constants [headers.ContentType],
    [headers.ContentTypeApplicationJson], [QueryTag] and [HeaderTag] of
    the packages [headers] and [parameters]. *)
Variable ContentType : string.
Variable ContentTypeApplicationJson : string.
Variable QueryTag : string.
Variable HeaderTag : string.

(** [request.Header.Get(key)]: the first value of the canonical key, the
    empty string when there is none. *)
Definition HeaderGet (h : gmap string (list string)) (key : string) : string :=
  match h !! CanonicalMIMEHeaderKey key with
  | Some (v :: _) => v
  | _ => EmptyString
  end.

Definition decodeJSONBodyParameters (params : P) (request : Request)
  : P + DecodeError :=
  if EqualFold (HeaderGet (Header request) ContentType)
               ContentTypeApplicationJson
  then
    match JSONDecode (Body request) params with
    | inr err => inr (FailedToDecodeJSON err)
    | inl params' => inl params'
    end
  else inl params.

(** The loop shared by the query and the header pass, over the entries in
    the order of the [range]. *)
Fixpoint bindEntries (src : Source) (lookupKeyToFieldName : gmap string string)
    (entries : list (string * list string)) (params : P)
  : P + DecodeError :=
  match entries with
  | [] => inl params
  | (name, values) :: rest =>
      match lookupKeyToFieldName !! ToLower name with
      | None => bindEntries src lookupKeyToFieldName rest params
      | Some matchedFieldName =>
          match values with
          | [value] =>
              match AssignField params matchedFieldName value with
              | inr err => inr (FailedToSetValue src name values err)
              | inl params' =>
                  bindEntries src lookupKeyToFieldName rest params'
              end
          | _ => inr (ExpectingOneValue src name values)
          end
      end
  end.

Definition decodeQueryParameters (params : P)
    (tagToLookupKeyToFieldName : gmap string (gmap string string))
    (entries : list (string * list string)) : Result (P + DecodeError) :=
  match tagToLookupKeyToFieldName !! QueryTag with
  | None => Panicked "the query tag should be present on the lookup key map"
  | Some lookupKeyToFieldName =>
      Done (bindEntries FromQuery lookupKeyToFieldName entries params)
  end.

Definition decodeHeaderParameters (params : P)
    (tagToLookupKeyToFieldName : gmap string (gmap string string))
    (entries : list (string * list string)) : Result (P + DecodeError) :=
  match tagToLookupKeyToFieldName !! HeaderTag with
  | None => Panicked "the header tag should be present on the lookup key map"
  | Some lookupKeyToFieldName =>
      Done (bindEntries FromHeader lookupKeyToFieldName entries params)
  end.

End Decode.

(** ASCII instances of the library functions, for requests whose keys and
    values are ASCII. *)
Definition asciiLower (c : ascii) : ascii :=
  let n := nat_of_ascii c in
  if ((65 <=? n) && (n <=? 90))%nat then ascii_of_nat (n + 32) else c.

Fixpoint asciiToLower (s : string) : string :=
  match s with
  | EmptyString => EmptyString
  | String c rest => String (asciiLower c) (asciiToLower rest)
  end.

Definition asciiEqualFold (s t : string) : bool :=
  String.eqb (asciiToLower s) (asciiToLower t).

(** ** Struct types used as examples *)

Definition field (name : string) (t : GoType) : StructField GoType :=
  mkField name t "" false.

Definition embedded (name : string) (t : GoType) : StructField GoType :=
  mkField name t "" true.

(** [type A struct { X int }], [type B struct { X string }]. *)
Definition structA : GoType := TStruct PlainStruct [field "X" (TInt W64)].
Definition structB : GoType := TStruct PlainStruct [field "X" TString].

(** [struct { A; B }]. *)
Definition twoEmbedded : GoType :=
  TStruct PlainStruct [embedded "A" structA; embedded "B" structB].

(** [type MyInt int] and [struct { MyInt; A; B }]. *)
Definition clashAfterInt : GoType :=
  TStruct PlainStruct
    [embedded "MyInt" (TInt W64); embedded "A" structA; embedded "B" structB].

(** [type A struct { A int }] and [type Outer struct { A }]. *)
Definition selfNamed : GoType := TStruct PlainStruct [field "A" (TInt W64)].
Definition outerSelfNamed : GoType :=
  TStruct PlainStruct [embedded "A" selfNamed].

(** The types of [TestAssign], cut down to the fields used below. *)
Definition testDeepEmbeddedStruct : GoType :=
  TStruct PlainStruct [field "DeepEmbeddedValue" (TPtr TString)].

Definition testEmbeddedStruct : GoType :=
  TStruct PlainStruct
    [embedded "testDeepEmbeddedStruct" testDeepEmbeddedStruct;
     field "EmbeddedValue" TString].

(** A struct tag [key:(quoted value)]. *)
Definition quoted (v : string) : string :=
  String (ascii_of_nat 34) (v +:+ String (ascii_of_nat 34) EmptyString).

Definition tag (key value : string) : string := key +:+ ":" +:+ quoted value.

Definition testInternalStruct : GoType :=
  TStruct PlainStruct [mkField "Value" TString (tag "json" "value") false].

Definition testStruct : GoType :=
  TStruct PlainStruct
    [embedded "testEmbeddedStruct" testEmbeddedStruct;
     field "StringValue" TString;
     field "IntValue" (TInt W64);
     field "Int8Value" (TInt W8);
     field "UintValue" (TUint W64);
     field "Uint8Value" (TUint W8);
     field "BoolValue" TBool;
     field "StructValue" testInternalStruct;
     field "IntPtrValue" (TPtr (TInt W64));
     field "BoolPtrValue" (TPtr TBool);
     field "UnhandledValue" TUintptr].

(** The table of a type whose extraction returns. *)
Definition tableOf (T : GoType) : Table :=
  match StructMetadata T with
  | Done tbl => tbl
  | Panicked _ => ∅
  end.

(** Decoders that accept any text and keep it as it is. *)
Definition echoDecoders : Decoders string :=
  mkDecoders (fun _ raw => inl raw) (fun raw => inl raw)
             (fun raw => inl raw) (fun _ raw => inl raw).

(** Decoders that refuse any text. *)
Definition refusingDecoders : Decoders string :=
  mkDecoders (fun _ _ => inr "invalid syntax")
             (fun _ => inr "parsing time")
             (fun _ => inr "cannot unmarshal text")
             (fun _ _ => inr "json unmarshal error").

(** A parameter struct kept as its fields by name, and an assignment that
    refuses the empty value. *)
Definition toyAssign (params : gmap string string) (fieldName value : string)
  : gmap string string + string :=
  if String.eqb value "" then inr "empty value"
  else inl (<[fieldName := value]> params).

Definition toyJSONDecode (body : string) (params : gmap string string)
  : gmap string string + string :=
  if String.eqb body "{}" then inl params else inr "unexpected body".

Definition toyTags : gmap string (gmap string string) :=
  {[ "urlQuery" := {[ "limit" := "Limit" ]};
     "httpHeader" := {[ "x-trace" := "Trace" ]} ]}.

Definition toyRequest (contentType : list string) (body : string) : Request :=
  mkRequest {[ "Content-Type" := contentType ]}
            {[ "limit" := ["10"]; "unknown" := ["a"; "b"] ]} body.

(** ** Name clashes at any depth, and the assignments of a pass *)

(** The names of the leaf fields among the events of a walk, in the order of
    the walk. *)
Definition evNames (evs : list (option (string * FieldMetadata))) : list string :=
  (omap id evs).*1.

(** No event of the list is a failed kind check. *)
Definition allSome (evs : list (option (string * FieldMetadata))) : Prop :=
  Forall (fun e => is_Some e) evs.

(** Two leaf fields named [n] are reached through different chains of
    anonymous fields. Two embedded sub-structs that both bring a field [n]
    are the case where neither chain is empty. *)
Definition nameClash (T : GoType) (n : string) : Prop :=
  exists path1 f1 path2 f2,
    reaches T path1 f1 /\ reaches T path2 f2 /\
    (Name f1 = n) /\ (Name f2 = n) /\ path1 <> path2.

(** [type N struct { A; B }] and [struct { N }]: the clash of [A.X] and
    [B.X] is one level down. *)
Definition nestedClash : GoType :=
  TStruct PlainStruct [embedded "N" twoEmbedded].

(** [struct { A; B; MyInt }]: the clash comes before the embedded int. *)
Definition clashBeforeInt : GoType :=
  TStruct PlainStruct
    [embedded "A" structA; embedded "B" structB; embedded "MyInt" (TInt W64)].

Section DecodeCalls.

Context {P : Type}.
Variable AssignField : P -> string -> string -> P + string.
Variable ToLower : string -> string.

(** Every entry that matches a tagged field carries exactly one value. *)
Definition allSingle (lookupKeyToFieldName : gmap string string)
    (entries : list (string * list string)) : Prop :=
  Forall (fun entry =>
            is_Some (lookupKeyToFieldName !! ToLower entry.1) ->
            length entry.2 = 1%nat) entries.

(** The assignments that a list of entries asks for: the key, the field it
    matches and its value, for every entry that matches a field and carries
    one value, in the order of the entries. *)
Definition calls (lookupKeyToFieldName : gmap string string)
    (entries : list (string * list string))
  : list (string * string * string) :=
  omap (fun entry =>
          match lookupKeyToFieldName !! ToLower entry.1, entry.2 with
          | Some fieldName, [value] => Some (entry.1, fieldName, value)
          | _, _ => None
          end) entries.

(** Assignments made one after the other on the struct, up to the first
    that fails. *)
Fixpoint assignAll (src : Source) (todo : list (string * string * string))
    (params : P) : P + DecodeError :=
  match todo with
  | [] => inl params
  | (name, fieldName, value) :: rest =>
      match AssignField params fieldName value with
      | inr err => inr (FailedToSetValue src name [value] err)
      | inl params' => assignAll src rest params'
      end
  end.

End DecodeCalls.

(** An assignment that only records its arguments. *)
Definition logAssign (log : list (string * string)) (fieldName value : string)
  : list (string * string) + string :=
  inl (log ++ [(fieldName, value)])%list.

(** ** More of the metadata walk *)

(** The first name of a list that is in [seen] or stands earlier in the
    list. *)
Fixpoint firstClash (seen : gset string) (names : list string)
  : option string :=
  match names with
  | [] => None
  | n :: rest =>
      if decide (n ∈ seen) then Some n else firstClash ({[n]} ∪ seen) rest
  end.

(** [type Inner struct { X int }] and [struct { Inner; X string }]: legal
    Go, where the outer [X] shadows [Inner.X]. *)
Definition shadowing : GoType :=
  TStruct PlainStruct [embedded "Inner" structA; field "X" TString].

(** *** Conventional struct tags *)

(** A key of the tag pattern: word bytes, one at least. *)
Definition wordKey (k : string) : bool :=
  match k with
  | EmptyString => false
  | _ => forallb isWord (list_ascii_of_string k)
  end.

(** A value of the tag pattern: any bytes but the double quote. *)
Definition quoteFree (v : string) : bool :=
  forallb (fun c => negb (isQuote c)) (list_ascii_of_string v).

Definition validPair (kv : string * string) : bool :=
  wordKey kv.1 && quoteFree kv.2.

(** The pairs written one after the other, a space in between. *)
Fixpoint tagString (kvs : list (string * string)) : string :=
  match kvs with
  | [] => EmptyString
  | (k, v) :: rest =>
      match rest with
      | [] => tag k v
      | _ => tag k v +:+ " " +:+ tagString rest
      end
  end.

Definition isStruct (t : GoType) : bool :=
  match t with TStruct _ _ => true | _ => false end.

(** What the scanner has read stays a key and a value of the pattern. *)
Definition scanOK (st : TagScan) : Prop :=
  match st with
  | Idle => True
  | InWord w | AfterColon w => w <> [] /\ forallb isWord w = true
  | InValue w v =>
      (w <> [] /\ forallb isWord w = true) /\
      forallb (fun c => negb (isQuote c)) v = true
  end.


(** ** More of the HTTP parameter binder *)

(** The error of the path pass, with the arguments of its format string. *)
Inductive PathError :=
| FailedToSetPathValue (pathName pathValue err : string).

(** The error returned by [Decode], by the stage that failed. *)
Inductive DecodeFailure :=
| BodyFailure (e : DecodeError)
| QueryFailure (e : DecodeError)
| HeaderFailure (e : DecodeError)
| PathFailure (e : PathError)
| ValidationFailure (err : string).

Section DecodeAll.

Context {P : Type}.
Variable AssignField : P -> string -> string -> P + string.
Variable JSONDecode : string -> P -> P + string.
Variable ToLower : string -> string.
Variable EqualFold : string -> string -> bool.
Variable CanonicalMIMEHeaderKey : string -> string.
Variable ContentType : string.
Variable ContentTypeApplicationJson : string.
Variable QueryTag : string.
Variable HeaderTag : string.
Variable PathTag : string.

(** [validation.Struct(params)]: the text of the error, if any. *)
Variable Validate : P -> option string.

(** [request.PathValue(name)]: the empty string for a name that the matched
    route does not have. *)
Variable PathValue : string -> string.

(** An entry of the request matches a tagged field. *)
Definition matchesField (lookupKeyToFieldName : gmap string string)
    (entry : string * list string) : bool :=
  match lookupKeyToFieldName !! ToLower entry.1 with
  | Some _ => true
  | None => false
  end.

(** The fields that the entries of a pass are bound to, entry by entry. *)
Definition targets (lookupKeyToFieldName : gmap string string)
    (entries : list (string * list string)) : list string :=
  omap (fun entry => lookupKeyToFieldName !! ToLower entry.1) entries.

(** Assignments to two different fields that both succeed can be made in
    the other order, with the same struct in the end. *)
Definition assignmentsCommute : Prop :=
  forall params f1 v1 f2 v2 params1 params12,
    f1 <> f2 ->
    AssignField params f1 v1 = inl params1 ->
    AssignField params1 f2 v2 = inl params12 ->
    exists params2,
      AssignField params f2 v2 = inl params2 /\
      AssignField params2 f1 v1 = inl params12.

(** The loop of [decodePathParameters], over the entries of the lookup map
    in the order of the [range]. *)
Fixpoint bindPath (entries : list (string * string)) (params : P)
  : P + PathError :=
  match entries with
  | [] => inl params
  | (pathName, field) :: rest =>
      let pathValue := PathValue pathName in
      if String.eqb pathValue EmptyString then bindPath rest params
      else
        match AssignField params field pathValue with
        | inr err => inr (FailedToSetPathValue pathName pathValue err)
        | inl params' => bindPath rest params'
        end
  end.

Definition decodePathParameters (params : P)
    (tagToLookupKeyToFieldName : gmap string (gmap string string))
    (rangeFields : gmap string string -> list (string * string))
  : Result (P + PathError) :=
  match tagToLookupKeyToFieldName !! PathTag with
  | None => Panicked "the path tag should be present on the lookup key map"
  | Some lookupKeyToFieldName =>
      Done (bindPath (rangeFields lookupKeyToFieldName) params)
  end.

(** A pass that failed ends [Decode] with the failure of its stage. *)
Definition stage {E} (wrap : E -> DecodeFailure) (r : Result (P + E))
    (next : P -> Result (P + DecodeFailure)) : Result (P + DecodeFailure) :=
  bindR r (fun outcome =>
    match outcome with
    | inr e => Done (inr (wrap e))
    | inl params => next params
    end).

(** [Decode[T](request)]. [T] is the parameter type and [params] the struct
    [new(T)] points to; [lookupKeys] is what
    [ExtractAndValidateFieldTagLookupKeys[T]()] returns, the lookup maps or
    the text of an error; [rangeValues] and [rangeFields] give the order in
    which a map is ranged over. *)
Definition Decode (T : GoType) (params : P)
    (lookupKeys : gmap string (gmap string string) + string)
    (request : Request)
    (rangeValues : gmap string (list string) -> list (string * list string))
    (rangeFields : gmap string string -> list (string * string))
  : Result (P + DecodeFailure) :=
  if negb (isStruct T) then Panicked "the generic must be a struct"
  else
    match lookupKeys with
    | inr err =>
        Panicked ("tags are not correctly formatted (" +:+ err +:+ ")")
    | inl tagToLookupKeyToFieldName =>
        stage BodyFailure
          (Done (decodeJSONBodyParameters JSONDecode EqualFold
                   CanonicalMIMEHeaderKey ContentType
                   ContentTypeApplicationJson params request))
        (fun params =>
        stage QueryFailure
          (decodeQueryParameters AssignField ToLower QueryTag params
             tagToLookupKeyToFieldName (rangeValues (URLQuery request)))
        (fun params =>
        stage HeaderFailure
          (decodeHeaderParameters AssignField ToLower HeaderTag params
             tagToLookupKeyToFieldName (rangeValues (Header request)))
        (fun params =>
        stage PathFailure
          (decodePathParameters params tagToLookupKeyToFieldName rangeFields)
        (fun params =>
           match Validate params with
           | Some err => Done (inr (ValidationFailure err))
           | None => Done (inl params)
           end))))
    end.

End DecodeAll.

(** Two query keys bound to two fields. *)
Definition toyLookup : gmap string string :=
  {[ "limit" := "Limit"; "offset" := "Offset" ]}.

Definition toyEntries : list (string * list string) :=
  [("Limit", ["10"]); ("Offset", ["5"])].

Definition toyAllTags : gmap string (gmap string string) :=
  {[ "urlQuery" := toyLookup;
     "httpHeader" := {[ "x-trace" := "Trace" ]};
     "urlPath" := {[ "id" := "ID" ]} ]}.

(** [Decode] on the toy struct, with a validation that accepts everything
    and a route without path values. *)
Definition toyDecode (request : Request)
  : Result (gmap string string + DecodeFailure) :=
  Decode toyAssign toyJSONDecode asciiToLower asciiEqualFold (fun key => key)
    "Content-Type" "application/json" "urlQuery" "httpHeader" "urlPath"
    (fun _ => None) (fun _ => EmptyString)
    structA ∅ (inl toyAllTags) request map_to_list map_to_list.

(** ** The environment loader ([envprocessor.go]) *)

Definition FormatTag : string := "config_format".
Definition DefaultTag : string := "config_default".
Definition FormatTypeSnake : string := "snake".

Record config := mkConfig { prefix : string }.

(** [WithPrefix(prefix)]: an option is a function that changes the
    configuration of the processor. *)
Definition WithPrefix (prefix : string) : config -> config :=
  fun _ => mkConfig prefix.

Definition applyOptions (opts : list (config -> config)) : config :=
  fold_left (fun cfg opt => opt cfg) opts (mkConfig EmptyString).

Inductive EnvError :=
| FailedEnvVar (envValue fieldName err : string)
| FailedDefault (defaultValue fieldName err : string)
| FailedValidation (err : string).

Definition invalidFormat (formatValue : string) : string :=
  "invalid config format (" +:+ formatValue +:+ ")".

Section EnvProcessor.

(** The configuration struct. *)
Context {C : Type}.

(** [assign.StructField(conf, fieldName, value)]: the struct after the call
    or the text of the error; [stringcase.CamelToSnake]; and
    [validation.Struct]. *)
Variable AssignField : C -> string -> string -> C + string.
Variable CamelToSnake : string -> string.
Variable Validate : C -> option string.

(** The name of the variable of a field. *)
Definition formattedEnvName (cfg : config) (fieldName : string) : string :=
  let formatted := CamelToSnake fieldName in
  if String.eqb (prefix cfg) EmptyString then formatted
  else prefix cfg +:+ "_" +:+ formatted.

(** The loop of [ProcessAndValidate] over the fields; [env] is the
    environment of [os.LookupEnv]. *)
Fixpoint processFields (cfg : config) (env : gmap string string)
    (entries : list (string * FieldMetadata)) (conf : C)
  : Result (C + EnvError) :=
  match entries with
  | [] => Done (inl conf)
  | (fieldName, fieldMetadata) :: rest =>
      match Tags fieldMetadata !! FormatTag with
      | None => processFields cfg env rest conf
      | Some formatValue =>
          if String.eqb formatValue FormatTypeSnake then
            match env !! formattedEnvName cfg fieldName with
            | Some envValue =>
                match AssignField conf fieldName envValue with
                | inr err => Done (inr (FailedEnvVar envValue fieldName err))
                | inl conf' => processFields cfg env rest conf'
                end
            | None =>
                match Tags fieldMetadata !! DefaultTag with
                | Some defaultValue =>
                    match AssignField conf fieldName defaultValue with
                    | inr err =>
                        Done (inr (FailedDefault defaultValue fieldName err))
                    | inl conf' => processFields cfg env rest conf'
                    end
                | None => processFields cfg env rest conf
                end
            end
          else Panicked (invalidFormat formatValue)
      end
  end.

(** [ProcessAndValidate[T](opts...)]. [conf] is the struct [new(T)] points
    to and [iterate] the order in which the iterator of the metadata table
    visits it. *)
Definition ProcessAndValidate (T : GoType) (opts : list (config -> config))
    (env : gmap string string)
    (iterate : Table -> list (string * FieldMetadata))
    (conf : C) : Result (C + EnvError) :=
  let cfg := applyOptions opts in
  bindR (StructMetadata T) (fun fieldsMetadata =>
  bindR (processFields cfg env (iterate fieldsMetadata) conf) (fun outcome =>
    match outcome with
    | inr e => Done (inr e)
    | inl conf' =>
        match Validate conf' with
        | Some err => Done (inr (FailedValidation err))
        | None => Done (inl conf')
        end
    end)).

End EnvProcessor.

(** [struct { Value int `config_format:(snake) config_default:(1)`;
    Other string }], and the struct of the test of an invalid format. *)
Definition configStruct : GoType :=
  TStruct PlainStruct
    [mkField "Value" (TInt W64)
       (tagString [("config_format", "snake"); ("config_default", "1")])
       false;
     field "Other" TString].

Definition badFormatStruct : GoType :=
  TStruct PlainStruct
    [mkField "Value" (TInt W64) (tag "config_format" "not_valid") false].

(** An assignment that accepts digits only. *)
Definition digitsAssign (conf : gmap string string) (fieldName value : string)
  : gmap string string + string :=
  if allDigits value then inl (<[fieldName := value]> conf)
  else inr "strconv.ParseInt".

Definition configEntries : list (string * FieldMetadata) :=
  [("Value",
    descriptor []
      (mkField "Value" (TInt W64)
         (tagString [("config_format", "snake"); ("config_default", "1")])
         false));
   ("Other", descriptor [] (field "Other" TString))].


(** A field under the loader with no default, next to a field the loader
    does not look at. *)
Definition noDefaultEntries : list (string * FieldMetadata) :=
  [("Port",
    descriptor []
      (mkField "Port" (TInt W64) (tag "config_format" "snake") false));
   ("Other", descriptor [] (field "Other" TString))].

(** The loader on the toy configuration: names kept as they are, digits
    only, every configuration valid. *)
Definition toyProcess (T : GoType) (opts : list (config -> config))
    (env : gmap string string)
  : Result (gmap string string + EnvError) :=
  ProcessAndValidate digitsAssign (fun name => name) (fun _ => None)
    T opts env map_to_list ∅.

(** ** The test assertions ([assert.go]) *)

(** [strings.Contains(s, substr)]: [substr] stands somewhere in [s]. *)
Fixpoint stringsContains (s substr : string) : bool :=
  String.prefix substr s ||
  match s with
  | EmptyString => false
  | String _ rest => stringsContains rest substr
  end.

(** What [recover()] gave after the call of [panicFunc]: nothing, a string,
    an error (by its text), or a value of another type. *)
Inductive Recovered :=
| NoPanic
| PanicString (s : string)
| PanicError (text : string)
| PanicOther.

(** An assertion returns the message it fails the test with, if any. *)
Definition expectedEqual (msg recoverMsg : string) : string :=
  "Expected panic message to equal '" +:+ msg +:+ "' but got '"
  +:+ recoverMsg +:+ "'.".

Definition expectedContain (msg recoverMsg : string) : string :=
  "Expected panic message to contain '" +:+ msg +:+ "' but got '"
  +:+ recoverMsg +:+ "'.".

Definition assertPanic (r : Recovered) (msg : option string) (exact : bool)
  : option string :=
  let panicOccurred :=
    match r with NoPanic => false | _ => true end in
  let recoverMsg :=
    match r with
    | PanicString s => Some s
    | PanicError text => Some text
    | _ => None
    end in
  if negb panicOccurred then
    Some "Expected panic to occur but none occurred."
  else
    match msg with
    | None => None
    | Some msg =>
        match recoverMsg with
        | None => Some "Could not extract error message from panic."
        | Some recoverMsg =>
            if exact then
              if negb (String.eqb recoverMsg msg)
              then Some (expectedEqual msg recoverMsg) else None
            else
              if negb (stringsContains recoverMsg msg)
              then Some (expectedContain msg recoverMsg) else None
        end
    end.

Definition Panic (r : Recovered) : option string := assertPanic r None false.

Definition PanicExact (r : Recovered) (msg : string) : option string :=
  assertPanic r (Some msg) true.

Definition PanicPart (r : Recovered) (part : string) : option string :=
  assertPanic r (Some part) false.

(** An [error] is nil or has a text. *)
Definition Error (err : option string) : option string :=
  match err with
  | None => Some "Expecting an error but none occurred."
  | Some _ => None
  end.

Definition ErrorExact (err : option string) (msg : string) : option string :=
  match err with
  | None => Some "Expecting an error but none occurred."
  | Some text =>
      if negb (String.eqb msg text) then
        Some ("Expected the error message '" +:+ msg +:+ "' but got '"
              +:+ text +:+ "'.")
      else None
  end.

Definition ErrorPart (err : option string) (part : string) : option string :=
  match err with
  | None => Some "Expecting an error but none occurred."
  | Some text =>
      if negb (stringsContains text part) then
        Some ("Expected the error message to contain '" +:+ part
              +:+ "' but got '" +:+ text +:+ "'.")
      else None
  end.

Definition NoError (err : option string) : option string :=
  match err with
  | Some text =>
      Some ("Not expecting an error to occur. Got " +:+ text +:+ ".")
  | None => None
  end.
(** ** Induction over types, through the field lists *)

Section GoType_nested_ind.
Variable P : GoType -> Prop.
Hypothesis P_string : P TString.
Hypothesis P_int : forall w, P (TInt w).
Hypothesis P_uint : forall w, P (TUint w).
Hypothesis P_float : forall w, P (TFloat w).
Hypothesis P_bool : P TBool.
Hypothesis P_uintptr : P TUintptr.
Hypothesis P_map : forall k e, P k -> P e -> P (TMap k e).
Hypothesis P_slice : forall e, P e -> P (TSlice e).
Hypothesis P_ptr : forall e, P e -> P (TPtr e).
Hypothesis P_struct :
  forall c fs, Forall (fun f => P (Type_ f)) fs -> P (TStruct c fs).

Fixpoint GoType_nested_ind (t : GoType) : P t :=
  match t with
  | TString => P_string
  | TInt w => P_int w
  | TUint w => P_uint w
  | TFloat w => P_float w
  | TBool => P_bool
  | TUintptr => P_uintptr
  | TMap k e => P_map k e (GoType_nested_ind k) (GoType_nested_ind e)
  | TSlice e => P_slice e (GoType_nested_ind e)
  | TPtr e => P_ptr e (GoType_nested_ind e)
  | TStruct c fs =>
      P_struct c fs
        ((fix go (l : list (StructField GoType))
            : Forall (fun f => P (Type_ f)) l :=
            match l with
            | [] => @List.Forall_nil _ (fun f => P (Type_ f))
            | f :: r =>
                @List.Forall_cons _ (fun f => P (Type_ f)) f r
                  (GoType_nested_ind (Type_ f)) (go r)
            end) fs)
  end.
End GoType_nested_ind.

(** ** The walk of [processType] is [scan] over [events] *)

Lemma bindR_Done {A B} (a : A) (k : A -> Result B) : bindR (Done a) k = k a.
Proof. reflexivity. Qed.

Lemma scan_app m l1 l2 :
  scan m (l1 ++ l2) = bindR (scan m l1) (fun m' => scan m' l2).
Proof.
  revert m. induction l1 as [|[[n md]|] l1 IH]; intros m; simpl; try done.
  destruct (m !! n); [done | apply IH].
Qed.

Lemma events_struct c fs chain :
  events (TStruct c fs) chain = fieldsEvents chain fs.
Proof.
  unfold fieldsEvents. simpl.
  induction fs as [|f rest IH]; simpl; [done|].
  unfold fieldEvents at 1. by rewrite IH.
Qed.

Lemma events_ptr e chain :
  events (TPtr e) chain =
  match e with TStruct _ _ => events e chain | _ => [None] end.
Proof. destruct e; reflexivity. Qed.

Lemma processType_ptr e m chain :
  processType (TPtr e) m chain =
  match e with
  | TStruct _ _ => processType e m chain
  | _ => Panicked notAStruct
  end.
Proof. destruct e; reflexivity. Qed.

Lemma processType_scan t :
  forall m chain, processType t m chain = scan m (events t chain).
Proof.
  induction t as [ | | | | | | | | e IH | c fs IH] using GoType_nested_ind;
    intros m chain; try reflexivity.
  - rewrite processType_ptr, events_ptr. destruct e; try reflexivity. apply IH.
  - rewrite events_struct. simpl. unfold fieldsEvents. revert m.
    induction IH as [|f rest Hf _ IHrest]; intros m; simpl; [done|].
    rewrite scan_app. unfold fieldEvents at 1.
    destruct (Anonymous f).
    + rewrite Hf. destruct (scan m _); simpl; [apply IHrest | done].
    + simpl. destruct (m !! Name f); simpl; [done | apply IHrest].
Qed.

Lemma StructMetadata_scan T : StructMetadata T = scan ∅ (events T []).
Proof. apply processType_scan. Qed.

(** ** What [scan] returns *)

Lemma occursTwice_cons n x l : occursTwice n l -> occursTwice n (x :: l).
Proof.
  intros (l1 & l2 & l3 & ->). by exists (x :: l1), l2, l3.
Qed.

Lemma occursTwice_head n l : n ∈ l -> occursTwice n (n :: l).
Proof.
  intros (l2 & l3 & ->)%list_elem_of_split. by exists [], l2, l3.
Qed.

Lemma occursTwice_not_NoDup n l : occursTwice n l -> ~ NoDup l.
Proof.
  intros (l1 & l2 & l3 & ->) Hnd.
  apply NoDup_app in Hnd as (_ & _ & Hnd).
  apply NoDup_cons in Hnd as [Hn _]. apply Hn. set_solver.
Qed.

Lemma scan_Done m evs m' :
  scan m evs = Done m' ->
  allSome evs /\ NoDup (evNames evs) /\
  (forall n, n ∈ evNames evs -> m !! n = None) /\
  (forall n md, m' !! n = Some md <->
                m !! n = Some md \/ (n, md) ∈ omap id evs).
Proof.
  unfold allSome, evNames. revert m.
  induction evs as [|[[n md]|] evs IH]; intros m; simpl.
  - intros [= <-]. repeat split; [constructor | constructor | set_solver | |].
    + by left.
    + intros [? | ?]; [done | set_solver].
  - destruct (m !! n) eqn:Hn; [done|]. intros Hscan.
    destruct (IH _ Hscan) as (Hall & Hnd & Hfresh & Hlook).
    repeat split.
    + constructor; [by eexists | done].
    + constructor; [|done]. intros Hin. specialize (Hfresh _ Hin).
      by rewrite lookup_insert_eq in Hfresh.
    + intros n' [-> | Hin]%elem_of_cons; [done|].
      specialize (Hfresh _ Hin).
      destruct (decide (n = n')) as [-> | Hne].
      * by rewrite lookup_insert_eq in Hfresh.
      * by rewrite lookup_insert_ne in Hfresh.
    + intros Hm'. apply Hlook in Hm' as [Hm' | Hin].
      * destruct (decide (n = n0)) as [-> | Hne].
        -- rewrite lookup_insert_eq in Hm'. injection Hm' as ->.
           right. by left.
        -- rewrite lookup_insert_ne in Hm' by done. by left.
      * right. by right.
    + intros [Hm | Hin]; apply Hlook.
      * left. rewrite lookup_insert_ne; [done|]. congruence.
      * apply elem_of_cons in Hin as [[= -> ->] | Hin].
        -- left. apply lookup_insert_eq.
        -- by right.
  - done.
Qed.

Lemma scan_total m evs :
  allSome evs -> NoDup (evNames evs) ->
  (forall n, n ∈ evNames evs -> m !! n = None) ->
  exists m', scan m evs = Done m'.
Proof.
  unfold allSome, evNames. revert m.
  induction evs as [|[[n md]|] evs IH]; intros m Hall Hnd Hfresh; simpl in *.
  - by eexists.
  - rewrite Hfresh by set_solver.
    apply Forall_cons in Hall as [_ Hall].
    apply NoDup_cons in Hnd as [Hn Hnd].
    apply IH; [done | done |]. intros n' Hin.
    destruct (decide (n = n')) as [Heq | Hne]; [by subst|].
    rewrite lookup_insert_ne by done. apply Hfresh. set_solver.
  - apply Forall_cons in Hall as [[? [=]] _].
Qed.

Lemma scan_Panicked m evs msg :
  scan m evs = Panicked msg ->
  (msg = notAStruct /\ ~ allSome evs) \/
  exists n, msg = ambiguous n /\ n ∈ evNames evs /\
            (is_Some (m !! n) \/ occursTwice n (evNames evs)).
Proof.
  unfold allSome, evNames. revert m.
  induction evs as [|[[n md]|] evs IH]; intros m; simpl.
  - done.
  - destruct (m !! n) eqn:Hn.
    + intros [= <-]. right. exists n. split; [done|]. split; [set_solver|].
      left. by eexists.
    + intros [[-> Hns] | (n' & -> & Hin & Hor)]%IH.
      * left. split; [done|]. intros Hall. apply Hns.
        by apply Forall_cons in Hall as [_ ?].
      * right. exists n'. split; [done|].
        split; [by apply elem_of_cons; right|].
        destruct Hor as [Hsome | Htwice].
        -- destruct (decide (n = n')) as [-> | Hne].
           ++ right. by apply occursTwice_head.
           ++ left. by rewrite lookup_insert_ne in Hsome.
        -- right. by apply occursTwice_cons.
  - intros [= <-]. left. split; [done|]. intros Hall.
    by apply Forall_cons in Hall as [[? [=]] _].
Qed.

(** ** Names do not depend on the ancestor chain *)

Definition shape (evs : list (option (string * FieldMetadata)))
  : list (option string) :=
  map (fun e => fst <$> e) evs.

Lemma shape_app l1 l2 : shape (l1 ++ l2) = (shape l1 ++ shape l2)%list.
Proof. apply map_app. Qed.

Lemma evNames_shape evs : evNames evs = omap id (shape evs).
Proof.
  unfold evNames, shape. induction evs as [|[[n md]|] evs IH];
    [done | | done].
  cbn. f_equal. exact IH.
Qed.

Lemma allSome_shape evs : allSome evs <-> Forall (fun e => is_Some e) (shape evs).
Proof.
  unfold allSome, shape. rewrite Forall_map. apply Forall_proper; [|done].
  intros [x|]; simpl; split; intros [? ?]; by eauto.
Qed.

Lemma evNames_app l1 l2 : evNames (l1 ++ l2) = (evNames l1 ++ evNames l2)%list.
Proof. unfold evNames. by rewrite omap_app, fmap_app. Qed.

Lemma events_deref t chain :
  events t chain =
  match deref t with
  | TStruct _ fs => fieldsEvents chain fs
  | _ => [None]
  end.
Proof.
  destruct t; try reflexivity.
  - rewrite events_ptr. simpl. destruct t; try reflexivity. apply events_struct.
  - apply events_struct.
Qed.

Lemma events_shape_chain t :
  forall c1 c2, shape (events t c1) = shape (events t c2).
Proof.
  induction t as [ | | | | | | | | e IH | c fs IH] using GoType_nested_ind;
    intros c1 c2; try reflexivity.
  - rewrite !events_ptr. destruct e; try reflexivity. apply IH.
  - rewrite !events_struct. unfold fieldsEvents.
    induction IH as [|f rest Hf _ IHrest]; simpl; [done|].
    rewrite !shape_app, IHrest. f_equal.
    unfold fieldEvents. destruct (Anonymous f); [apply Hf | done].
Qed.

Lemma leafNames_chain t chain : (leaves t chain).*1 = leafNames t.
Proof.
  unfold leafNames, leaves. change ((omap id ?l).*1) with (evNames l).
  by rewrite !evNames_shape, (events_shape_chain t chain []).
Qed.

Lemma structural_allSome t chain :
  structural t = true <-> allSome (events t chain).
Proof.
  rewrite allSome_shape, (events_shape_chain t chain []), <- allSome_shape.
  unfold structural, allSome. rewrite forallb_forall, Forall_forall.
  split; intros H e He.
  - apply list_elem_of_In, H in He. destruct e; [by eexists | done].
  - apply list_elem_of_In, H in He. by destruct He as [? ->].
Qed.

(** ** Two anonymous fields with a common leaf name *)

Lemma fieldsEvents_app chain l1 l2 :
  fieldsEvents chain (l1 ++ l2)
  = (fieldsEvents chain l1 ++ fieldsEvents chain l2)%list.
Proof. unfold fieldsEvents. by rewrite map_app, concat_app. Qed.

Lemma fieldsEvents_cons chain f l :
  fieldsEvents chain (f :: l) = (fieldEvents chain f ++ fieldsEvents chain l)%list.
Proof. reflexivity. Qed.

Lemma fieldEvents_anonymous_names chain f :
  Anonymous f = true -> evNames (fieldEvents chain f) = leafNames (Type_ f).
Proof.
  intros Ha. unfold fieldEvents. rewrite Ha.
  apply (leafNames_chain (Type_ f)).
Qed.

Lemma lookup_two_split {A} (l : list A) (i j : nat) x y :
  (i < j)%nat -> l !! i = Some x -> l !! j = Some y ->
  exists l1 l2 l3, l = (l1 ++ x :: l2 ++ y :: l3)%list.
Proof.
  intros Hlt Hi Hj.
  exists (take i l), (take (j - S i) (drop (S i) l)),
         (drop (S (j - S i)) (drop (S i) l)).
  rewrite <- (take_drop_middle l i x Hi) at 1. f_equal. f_equal.
  symmetry. apply take_drop_middle.
  rewrite lookup_drop. rewrite <- Hj. f_equal. lia.
Qed.

Lemma occursTwice_middle n (a b c d e : list string) :
  n ∈ b -> n ∈ d -> occursTwice n (a ++ b ++ c ++ d ++ e).
Proof.
  intros (b1 & b2 & ->)%list_elem_of_split (d1 & d2 & ->)%list_elem_of_split.
  exists (a ++ b1)%list, (b2 ++ c ++ d1)%list, (d2 ++ e)%list.
  repeat (rewrite <- ?app_assoc; simpl). done.
Qed.

Lemma embeddedClash_occursTwice T n :
  embeddedClash T n -> occursTwice n (leafNames T).
Proof.
  intros (i & j & fi & fj & Hne & Hi & Hj & Hai & Haj & Hni & Hnj).
  unfold leafNames, leaves. change ((omap id ?l).*1) with (evNames l).
  rewrite events_deref. unfold fieldsOf in Hi, Hj.
  destruct (deref T); try (by rewrite lookup_nil in Hi).
  assert (forall (i j : nat) fi fj, (i < j)%nat ->
            fields !! i = Some fi -> fields !! j = Some fj ->
            Anonymous fi = true -> Anonymous fj = true ->
            n ∈ leafNames (Type_ fi) -> n ∈ leafNames (Type_ fj) ->
            occursTwice n (evNames (fieldsEvents [] fields))) as Hord.
  { clear. intros i j fi fj Hlt Hi Hj Hai Haj Hni Hnj.
    destruct (lookup_two_split _ _ _ _ _ Hlt Hi Hj) as (l1 & l2 & l3 & ->).
    rewrite fieldsEvents_app, fieldsEvents_cons, fieldsEvents_app,
      fieldsEvents_cons, !evNames_app.
    apply occursTwice_middle; by rewrite fieldEvents_anonymous_names. }
  destruct (decide (i < j)%nat); [by eapply (Hord i j)|].
  eapply (Hord j i); eauto. lia.
Qed.

(** ** Leaves are the fields reached through anonymous fields *)

Lemma elem_of_omap_id {A} (x : A) (l : list (option A)) :
  x ∈ omap id l <-> Some x ∈ l.
Proof.
  rewrite list_elem_of_omap. split.
  - intros (y & Hy & Heq). simpl in Heq. by subst.
  - intros H. by exists (Some x).
Qed.

Lemma elem_of_fieldsEvents e chain fs :
  e ∈ fieldsEvents chain fs <-> exists f, f ∈ fs /\ e ∈ fieldEvents chain f.
Proof.
  unfold fieldsEvents. rewrite list_elem_of_In, in_concat. split.
  - intros (l & (f & <- & Hf)%in_map_iff & He).
    exists f. by rewrite !list_elem_of_In.
  - intros (f & Hf & He). exists (fieldEvents chain f).
    rewrite <- !list_elem_of_In. split; [|done].
    apply list_elem_of_In, in_map. by apply list_elem_of_In.
Qed.

Lemma events_reaches t :
  forall chain n md,
    Some (n, md) ∈ events t chain ->
    exists path f, reaches t path f /\ n = Name f /\
                   md = descriptor (chain ++ path) f.
Proof.
  induction t as [ | | | | | | | | e IH | c fs IH] using GoType_nested_ind;
    intros chain n md; try (simpl; by intros [=]%list_elem_of_singleton).
  - rewrite events_ptr. destruct e;
      try (by intros [=]%list_elem_of_singleton).
    intros (path & f & Hr & Hn & Hmd)%IH. exists path, f. split; [|done].
    inversion Hr; subst; [by apply reaches_here | by eapply reaches_through].
  - rewrite events_struct, elem_of_fieldsEvents.
    intros (f & Hf & He). unfold fieldEvents in He.
    destruct (Anonymous f) eqn:Ha.
    + rewrite Forall_forall in IH.
      destruct (IH f Hf _ _ _ He) as (path & f' & Hr & -> & ->).
      exists (Name f :: path), f'. split; [by eapply reaches_through|].
      split; [done|]. by rewrite <- app_assoc.
    + apply list_elem_of_singleton in He. injection He as -> ->.
      exists [], f. split; [by apply reaches_here|].
      by rewrite app_nil_r.
Qed.

Lemma reaches_events t path f :
  reaches t path f ->
  forall chain, Some (describe (chain ++ path) f) ∈ events t chain.
Proof.
  induction 1 as [t f Hf Ha | t g path f Hg Ha _ IH]; intros chain;
    rewrite events_deref; unfold fieldsOf in *;
    destruct (deref t); try (by apply not_elem_of_nil in Hf);
    try (by apply not_elem_of_nil in Hg);
    apply elem_of_fieldsEvents.
  - exists f. split; [done|]. unfold fieldEvents. rewrite Ha, app_nil_r.
    by apply list_elem_of_singleton.
  - exists g. split; [done|]. unfold fieldEvents. rewrite Ha.
    specialize (IH (chain ++ [Name g])%list).
    by rewrite <- app_assoc in IH.
Qed.

Lemma reaches_leaf t path f : reaches t path f -> Anonymous f = false.
Proof. by induction 1. Qed.

Lemma leaves_reaches t n md :
  (n, md) ∈ leaves t [] <->
  exists path f, reaches t path f /\ n = Name f /\ md = descriptor path f.
Proof.
  unfold leaves. rewrite elem_of_omap_id. split.
  - apply events_reaches.
  - intros (path & f & Hr & -> & ->). apply (reaches_events _ _ _ Hr []).
Qed.

(** ** Metadata extraction: conflicts and keys *)

Lemma leafNames_evNames T : leafNames T = evNames (events T []).
Proof. reflexivity. Qed.

Lemma StructMetadata_Done T tbl :
  StructMetadata T = Done tbl ->
  structural T = true /\ NoDup (leafNames T) /\
  (forall n md, tbl !! n = Some md <-> (n, md) ∈ leaves T []).
Proof.
  rewrite StructMetadata_scan.
  intros (Hall & Hnd & _ & Hlook)%scan_Done. repeat split.
  - by apply (structural_allSome T []).
  - done.
  - intros H. apply Hlook in H as [H | H]; [|done].
    by rewrite lookup_empty in H.
  - intros H. apply Hlook. by right.
Qed.

Lemma StructMetadata_total T :
  structural T = true -> NoDup (leafNames T) ->
  exists tbl, StructMetadata T = Done tbl.
Proof.
  intros Hs Hnd. rewrite StructMetadata_scan. apply scan_total.
  - by apply structural_allSome.
  - done.
  - intros n _. apply lookup_empty.
Qed.

Lemma notAStruct_not_ambiguous n : notAStruct <> ambiguous n.
Proof. discriminate. Qed.

Lemma scan_first_fault m evs msg :
  scan m evs = Panicked msg ->
  exists before fault after,
    evs = (before ++ fault :: after)%list /\
    allSome before /\ NoDup (evNames before) /\
    (forall n, n ∈ evNames before -> m !! n = None) /\
    match fault with
    | None => msg = notAStruct
    | Some (n, _) =>
        (n ∈ evNames before \/ is_Some (m !! n)) /\ msg = ambiguous n
    end.
Proof.
  unfold allSome, evNames. revert m.
  induction evs as [|[[n md]|] evs IH]; intros m; cbn [scan].
  - done.
  - destruct (m !! n) eqn:Hn.
    + intros [= <-]. exists [], (Some (n, md)), evs.
      repeat split; [constructor | constructor | |].
      * by intros n' Hin%not_elem_of_nil.
      * right. by eexists.
    + intros (before & fault & after & -> & Hall & Hnd & Hfresh & Hfault)%IH.
      exists (Some (n, md) :: before), fault, after.
      assert (n ∉ (omap id before).*1) as Hnotin.
      { intros Hin. specialize (Hfresh _ Hin).
        by rewrite lookup_insert_eq in Hfresh. }
      split; [done|]. split; [constructor; [by eexists | done]|].
      split; [by constructor|]. split.
      * intros n' [-> | Hin]%elem_of_cons; [done|].
        specialize (Hfresh _ Hin).
        destruct (decide (n = n')) as [<- | Hne]; [done|].
        by rewrite lookup_insert_ne in Hfresh.
      * destruct fault as [[n' md']|]; [|done].
        destruct Hfault as [[Hin | Hsome] ->]; (split; [|done]).
        -- left. by right.
        -- destruct (decide (n = n')) as [<- | Hne]; [left; by left|].
           right. by rewrite lookup_insert_ne in Hsome.
  - intros [= <-]. exists [], None, evs.
    repeat split; [constructor | constructor |].
    by intros n' Hin%not_elem_of_nil.
Qed.

Lemma two_elems_occursTwice {A} (l : list (string * A)) x y :
  x ∈ l -> y ∈ l -> x <> y -> x.1 = y.1 -> occursTwice x.1 l.*1.
Proof.
  intros (l1 & l2 & ->)%list_elem_of_split Hy Hne Heq.
  apply elem_of_app in Hy as [Hy | Hy].
  - apply list_elem_of_split in Hy as (l3 & l4 & ->).
    exists l3.*1, l4.*1, l2.*1.
    rewrite <- app_assoc. cbn [app].
    rewrite fmap_app, fmap_cons, fmap_app, fmap_cons. by rewrite Heq.
  - apply elem_of_cons in Hy as [-> | Hy]; [done|].
    apply list_elem_of_split in Hy as (l3 & l4 & ->).
    exists l1.*1, l3.*1, l4.*1.
    rewrite fmap_app, fmap_cons, fmap_app, fmap_cons. by rewrite Heq.
Qed.

Lemma nameClash_occursTwice T n :
  nameClash T n -> occursTwice n (leafNames T).
Proof.
  intros (path1 & f1 & path2 & f2 & Hr1 & Hr2 & Hn1 & Hn2 & Hne).
  assert ((n, descriptor path1 f1) ∈ leaves T []) as H1
    by (apply leaves_reaches; eauto).
  assert ((n, descriptor path2 f2) ∈ leaves T []) as H2
    by (apply leaves_reaches; eauto).
  apply (two_elems_occursTwice _ _ _ H1 H2); [|done].
  intros [= _ _ Hpath]. done.
Qed.

(** C3, as amended. When a leaf field name is reached through two
    different chains of anonymous fields, at any depth, or when two
    anonymous fields of the struct both bring a leaf of that name, metadata
    extraction panics and returns no table. The panic is the one of the
    first fault of the walk, in declaration order with the anonymous fields
    expanded in place: before it the walk has met leaf fields only, no two of
    the same name; the fault is either a leaf field whose name is among
    theirs, and the panic says that this field is ambiguous, or a type that
    is neither a struct nor a pointer to a struct where the walk needs one,
    and the panic is the one of the kind check. *)
Theorem StructMetadata_embedded_clash (T : GoType) (n : string) :
  nameClash T n \/ embeddedClash T n ->
  exists before fault after msg,
    events T [] = (before ++ fault :: after)%list /\
    allSome before /\ NoDup (evNames before) /\
    StructMetadata T = Panicked msg /\
    match fault with
    | None => msg = notAStruct
    | Some (n', _) => n' ∈ evNames before /\ msg = ambiguous n'
    end.
Proof.
  intros [Htwice%nameClash_occursTwice | Htwice%embeddedClash_occursTwice];
    (destruct (StructMetadata T) as [tbl | msg] eqn:Hmeta;
     [apply StructMetadata_Done in Hmeta as (_ & Hnd & _);
      by apply occursTwice_not_NoDup in Htwice|]).
  all: rewrite StructMetadata_scan in Hmeta.
  all: apply scan_first_fault in Hmeta
      as (before & fault & after & Hev & Hall & Hnd & _ & Hfault).
  all: exists before, fault, after, msg; repeat split; try done.
  all: destruct fault as [[n' md]|]; [|done].
  all: destruct Hfault as [[Hin | [? Hsome]] ->]; [done|].
  all: by rewrite lookup_empty in Hsome.
Qed.

Lemma nestedClash_nameClash : nameClash nestedClash "X".
Proof.
  exists ["N"; "A"], (field "X" (TInt W64)), ["N"; "B"], (field "X" TString).
  repeat split; try done.
  - apply (reaches_through _ (embedded "N" twoEmbedded));
      [apply list_elem_of_In; by left | done |].
    apply (reaches_through _ (embedded "A" structA));
      [apply list_elem_of_In; by left | done |].
    apply reaches_here; [apply list_elem_of_In; by left | done].
  - apply (reaches_through _ (embedded "N" twoEmbedded));
      [apply list_elem_of_In; by left | done |].
    apply (reaches_through _ (embedded "B" structB));
      [apply list_elem_of_In; right; by left | done |].
    apply reaches_here; [apply list_elem_of_In; by left | done].
Defined.

Lemma StructMetadata_embedded_clash_witness :
  nameClash nestedClash "X" /\
  (exists before fault after msg,
      events nestedClash [] = (before ++ fault :: after)%list /\
      allSome before /\ NoDup (evNames before) /\
      StructMetadata nestedClash = Panicked msg /\
      match fault with
      | None => msg = notAStruct
      | Some (n', _) => n' ∈ evNames before /\ msg = ambiguous n'
      end) /\
  StructMetadata nestedClash = Panicked "field X is ambiguous" /\
  StructMetadata clashBeforeInt = Panicked "field X is ambiguous".
Proof.
  split; [exact nestedClash_nameClash|]. split; [|split; reflexivity].
  exact (StructMetadata_embedded_clash nestedClash "X"
           (or_introl nestedClash_nameClash)).
Defined.

(** C3 as stated fails: in [struct { MyInt; A; B }] the embedded structs
    [A] and [B] both bring a field [X], and the panic of the extraction is
    the one of the kind check, which names no field. *)
Lemma clashAfterInt_names_no_field :
  embeddedClash clashAfterInt "X" /\
  StructMetadata clashAfterInt = Panicked notAStruct /\
  (forall n, StructMetadata clashAfterInt <> Panicked (ambiguous n)).
Proof.
  split; [|split].
  - exists 1%nat, 2%nat, (embedded "A" structA), (embedded "B" structB).
    repeat split; try reflexivity; try lia;
      apply list_elem_of_In; vm_compute; by left.
  - reflexivity.
  - intros n. change (StructMetadata clashAfterInt) with
      (@Panicked Table notAStruct). discriminate.
Qed.

(** C10, as amended. The keys of a metadata table are exactly the names of
    the fields that are not anonymous and are reached by flattening, each
    with the descriptor of that field; an anonymous field gets no entry of
    its own, so that its name is a key only when a leaf field bears the same
    name; the names of the anonymous fields gone through are the [Anonymous]
    chain of the leaf descriptor. *)
Theorem StructMetadata_keys (T : GoType) (tbl : Table) :
  StructMetadata T = Done tbl ->
  (forall n md,
      tbl !! n = Some md <->
      exists path f, reaches T path f /\ n = Name f /\
                     md = descriptor path f) /\
  NoDup (leafNames T) /\
  (forall path f,
      reaches T path f ->
      exists md, tbl !! Name f = Some md /\ MAnonymous md = path /\
                 Anonymous f = false).
Proof.
  intros (_ & Hnd & Hlook)%StructMetadata_Done. split; [|split].
  - intros n md. by rewrite Hlook, leaves_reaches.
  - done.
  - intros path f Hr. exists (descriptor path f). split; [|split].
    + apply Hlook, leaves_reaches. eauto.
    + done.
    + by eapply reaches_leaf.
Qed.

(** C10 as stated fails: in [type A struct { A int }], [type Outer struct
    { A }] the anonymous field is named [A], and [A] is a key of the table
    of [Outer], for the leaf field [A.A]. *)
Lemma outerSelfNamed_embedded_name_is_key :
  StructMetadata outerSelfNamed
  = Done {[ "A" := descriptor ["A"] (field "A" (TInt W64)) ]} /\
  embedded "A" selfNamed ∈ fieldsOf outerSelfNamed /\
  Anonymous (embedded "A" selfNamed) = true /\
  ({[ "A" := descriptor ["A"] (field "A" (TInt W64)) ]} : Table)
    !! Name (embedded "A" selfNamed)
  = Some (descriptor ["A"] (field "A" (TInt W64))).
Proof.
  repeat split.
  - apply list_elem_of_In. by left.
Qed.

(** ** Base-10 text of integers *)

Lemma digitVal_digitChar d : 0 <= d < 10 -> digitVal (digitChar d) = Some d.
Proof.
  intros Hd.
  assert (d = 0 \/ d = 1 \/ d = 2 \/ d = 3 \/ d = 4 \/ d = 5 \/ d = 6 \/
          d = 7 \/ d = 8 \/ d = 9) as Hcases by lia.
  repeat (destruct Hcases as [-> | Hcases]; [reflexivity|]).
  by subst.
Qed.

Lemma digitVal_isDigit c d : digitVal c = Some d -> isDigit c = true.
Proof. unfold digitVal, isDigit. by case_match. Qed.

Lemma isDigit_digitVal c : isDigit c = true -> exists d, digitVal c = Some d.
Proof. unfold digitVal, isDigit. intros ->. by eexists. Qed.

Lemma isDigit_not_sign c :
  isDigit c = true -> isPlus c = false /\ isMinus c = false.
Proof.
  unfold isDigit, isPlus, isMinus.
  intros [H1 H2]%andb_prop. apply Nat.leb_le in H1.
  split; apply Nat.eqb_neq; lia.
Qed.

Lemma parseDigits_app acc s t :
  parseDigits acc (s +:+ t) = parseDigits acc s ≫= fun a => parseDigits a t.
Proof.
  revert acc. induction s as [|c s IH]; intros acc; simpl; [done|].
  destruct (digitVal c); [apply IH | done].
Qed.

Lemma parseDigits_one acc d :
  0 <= d < 10 ->
  parseDigits acc (String (digitChar d) EmptyString) = Some (10 * acc + d).
Proof.
  intros Hd. cbn [parseDigits]. by rewrite digitVal_digitChar.
Qed.

Lemma digitsOf_S fuel n :
  digitsOf (S fuel) n =
  if n <? 10 then String (digitChar n) EmptyString
  else digitsOf fuel (n / 10) +:+ String (digitChar (n mod 10)) EmptyString.
Proof. reflexivity. Qed.

Lemma parseDigits_digitsOf fuel :
  forall n, 0 <= n < 10 * 2 ^ Z.of_nat fuel ->
            parseDigits 0 (digitsOf (S fuel) n) = Some n.
Proof.
  induction fuel as [|fuel IH]; intros n Hn; rewrite digitsOf_S.
  - change (2 ^ Z.of_nat 0) with 1 in Hn.
    destruct (Z.ltb_spec n 10); [|lia].
    rewrite parseDigits_one by lia. f_equal; lia.
  - destruct (Z.ltb_spec n 10).
    + rewrite parseDigits_one by lia. f_equal; lia.
    + rewrite parseDigits_app, IH.
      * cbn [mbind option_bind]. rewrite parseDigits_one
          by (apply Z.mod_pos_bound; lia).
        pose proof (Z.div_mod n 10). f_equal; lia.
      * rewrite Nat2Z.inj_succ, Z.pow_succ_r in Hn by lia.
        split; [apply Z.div_pos; lia|].
        apply Z.div_lt_upper_bound; lia.
Qed.

Lemma digitsOf_not_empty fuel n : digitsOf (S fuel) n <> EmptyString.
Proof.
  rewrite digitsOf_S. destruct (n <? 10); [done|].
  destruct (digitsOf fuel (n / 10)); discriminate.
Qed.

Lemma parseDecimal_not_empty s :
  s <> EmptyString -> parseDecimal s = parseDigits 0 s.
Proof. by destruct s. Qed.

Lemma parseDecimal_FormatUint n : 0 <= n -> parseDecimal (FormatUint n) = Some n.
Proof.
  intros Hn. unfold FormatUint.
  rewrite parseDecimal_not_empty by apply digitsOf_not_empty.
  apply parseDigits_digitsOf.
  rewrite Z2Nat.id by apply Z.log2_nonneg.
  destruct (Z.eq_dec n 0) as [-> | Hne]; [simpl; lia|].
  pose proof (Z.log2_spec n ltac:(lia)) as [_ Hup].
  rewrite Z.pow_succ_r in Hup by apply Z.log2_nonneg.
  pose proof (Z.pow_pos_nonneg 2 (Z.log2 n) ltac:(lia) (Z.log2_nonneg n)).
  lia.
Qed.

Lemma parseDigits_allDigits acc s v :
  parseDigits acc s = Some v ->
  forallb isDigit (list_ascii_of_string s) = true.
Proof.
  revert acc. induction s as [|c s IH]; intros acc; simpl; [done|].
  destruct (digitVal c) eqn:Hc; [|done].
  intros H. rewrite (digitVal_isDigit _ _ Hc). simpl. by eapply IH.
Qed.

Lemma parseDecimal_allDigits s v : parseDecimal s = Some v -> allDigits s = true.
Proof.
  destruct s; [done|]. unfold parseDecimal, allDigits.
  apply parseDigits_allDigits.
Qed.

Lemma parseSigned_of_decimal s v : parseDecimal s = Some v -> parseSigned s = Some v.
Proof.
  destruct s as [|c s]; [done|]. intros H. unfold parseSigned.
  pose proof (parseDecimal_allDigits _ _ H) as Hd. simpl in Hd.
  apply andb_prop in Hd as [Hc _].
  by destruct (isDigit_not_sign _ Hc) as [-> ->].
Qed.

Lemma parseSigned_wellFormed s v : parseSigned s = Some v -> wellFormedInt s = true.
Proof.
  destruct s as [|c s]; [done|]. unfold parseSigned, wellFormedInt.
  destruct (isPlus c); cbn [orb]; [apply parseDecimal_allDigits|].
  destruct (isMinus c); cbn [orb]; [|apply parseDecimal_allDigits].
  destruct (parseDecimal s) eqn:H; [|done]. intros _.
  by eapply parseDecimal_allDigits.
Qed.

Lemma parseSigned_FormatInt z : parseSigned (FormatInt z) = Some z.
Proof.
  unfold FormatInt. destruct (Z.ltb_spec z 0).
  - unfold parseSigned.
    change (isPlus (ascii_of_nat 45)) with false.
    change (isMinus (ascii_of_nat 45)) with true. cbv iota.
    rewrite parseDecimal_FormatUint by lia. simpl. f_equal. lia.
  - apply parseSigned_of_decimal, parseDecimal_FormatUint. lia.
Qed.

Lemma parseDecimal_FormatInt_negative z : z < 0 -> parseDecimal (FormatInt z) = None.
Proof.
  intros Hz. unfold FormatInt. destruct (Z.ltb_spec z 0); [|lia]. reflexivity.
Qed.

(** ** The assignment engine *)

Section EngineFacts.
Context {Payload : Type} (dec : Decoders Payload).

Lemma AssignToField_known c fs tbl inst name md raw :
  StructMetadata (TStruct c fs) = Done tbl ->
  tbl !! name = Some md ->
  AssignToField dec (TStruct c fs) (Some inst) name raw =
  match convert dec (MType md) raw with
  | inl v => Done (<[name := v]> inst, None)
  | inr cause => Done (inst, Some (mkAssignError name raw cause))
  end.
Proof. intros Hmeta Hmd. unfold AssignToField. by rewrite Hmeta; simpl; rewrite Hmd. Qed.

Lemma ParseInt_FormatInt w z :
  ParseInt (FormatInt z) w = if inRangeInt w z then inl z else inr RangeError.
Proof. unfold ParseInt. by rewrite parseSigned_FormatInt. Qed.

Lemma ParseInt_malformed w raw :
  wellFormedInt raw = false -> ParseInt raw w = inr FormatError.
Proof.
  intros Hwf. unfold ParseInt. destruct (parseSigned raw) eqn:Hp; [|done].
  apply parseSigned_wellFormed in Hp. congruence.
Qed.

Lemma ParseUint_FormatInt w z :
  ParseUint (FormatInt z) w =
  if inRangeUint w z then inl z
  else if z <? 0 then inr FormatError else inr RangeError.
Proof.
  unfold ParseUint. destruct (Z.ltb_spec z 0) as [Hneg | Hpos].
  - rewrite parseDecimal_FormatInt_negative by done.
    unfold inRangeUint. destruct (Z.leb_spec 0 z); [lia | done].
  - unfold FormatInt. destruct (Z.ltb_spec z 0); [lia|].
    by rewrite parseDecimal_FormatUint.
Qed.

Lemma ParseUint_malformed w raw :
  wellFormedUint raw = false -> ParseUint raw w = inr FormatError.
Proof.
  intros Hwf. unfold ParseUint. destruct (parseDecimal raw) eqn:Hp; [|done].
  apply parseDecimal_allDigits in Hp. unfold wellFormedUint in Hwf. congruence.
Qed.

Lemma existsb_eqb_elem_of raw (tokens : list string) :
  existsb (String.eqb raw) tokens = true <-> raw ∈ tokens.
Proof.
  rewrite existsb_exists, list_elem_of_In. split.
  - by intros (token & Hin & ->%String.eqb_eq).
  - intros Hin. exists raw. split; [done | apply String.eqb_refl].
Qed.

Lemma ParseBool_tokens raw :
  ParseBool raw =
  if decide (raw ∈ trueTokens) then inl true
  else if decide (raw ∈ falseTokens) then inl false
  else inr BoolError.
Proof.
  unfold ParseBool.
  destruct (existsb (String.eqb raw) trueTokens) eqn:Ht.
  - apply existsb_eqb_elem_of in Ht. by rewrite decide_True.
  - rewrite decide_False
      by (intros Hin%existsb_eqb_elem_of; congruence).
    destruct (existsb (String.eqb raw) falseTokens) eqn:Hf.
    + apply existsb_eqb_elem_of in Hf. by rewrite decide_True.
    + by rewrite decide_False
        by (intros Hin%existsb_eqb_elem_of; congruence).
Qed.

End EngineFacts.

Section EngineClaims.
Context {Payload : Type} (dec : Decoders Payload).

(** C1. On a field of a signed or unsigned integer type of width [w],
    assigning the base-10 text of [z] stores exactly [z] when [z] fits the
    width; when it does not fit, and for any text that is not integer
    text, the call returns an error, does not panic and leaves the struct
    as it was. *)
Theorem AssignToField_integer_text c fs tbl inst name md w z :
  StructMetadata (TStruct c fs) = Done tbl ->
  tbl !! name = Some md ->
  (MType md = TInt w ->
     AssignToField dec (TStruct c fs) (Some inst) name (FormatInt z) =
       (if inRangeInt w z then Done (<[name := VInt z]> inst, None)
        else Done (inst,
                   Some (mkAssignError name (FormatInt z) RangeError))) /\
     (forall raw,
         wellFormedInt raw = false ->
         AssignToField dec (TStruct c fs) (Some inst) name raw =
           Done (inst, Some (mkAssignError name raw FormatError)))) /\
  (MType md = TUint w ->
     AssignToField dec (TStruct c fs) (Some inst) name (FormatInt z) =
       (if inRangeUint w z then Done (<[name := VUint z]> inst, None)
        else Done (inst,
                   Some (mkAssignError name (FormatInt z)
                           (if z <? 0 then FormatError else RangeError)))) /\
     (forall raw,
         wellFormedUint raw = false ->
         AssignToField dec (TStruct c fs) (Some inst) name raw =
           Done (inst, Some (mkAssignError name raw FormatError)))).
Proof.
  intros Hmeta Hmd. split; intros Hty; split; intros;
    rewrite (AssignToField_known dec _ _ _ _ _ _ _ Hmeta Hmd), Hty; simpl.
  - rewrite ParseInt_FormatInt. by destruct (inRangeInt w z).
  - by rewrite ParseInt_malformed.
  - rewrite ParseUint_FormatInt.
    destruct (inRangeUint w z); [done|]. by destruct (z <? 0).
  - by rewrite ParseUint_malformed.
Qed.

(** C2, as amended. On a boolean field the texts that [strconv.ParseBool]
    takes for true, [1], [t], [T], [TRUE], [true] and [True], store true,
    the texts it takes for false, [0], [f], [F], [FALSE], [false] and
    [False], store false, and any other text returns an error and leaves the
    struct as it was. *)
Theorem AssignToField_bool_tokens c fs tbl inst name md raw :
  StructMetadata (TStruct c fs) = Done tbl ->
  tbl !! name = Some md ->
  MType md = TBool ->
  (raw ∈ trueTokens ->
     AssignToField dec (TStruct c fs) (Some inst) name raw =
       Done (<[name := VBool true]> inst, None)) /\
  (raw ∈ falseTokens ->
     AssignToField dec (TStruct c fs) (Some inst) name raw =
       Done (<[name := VBool false]> inst, None)) /\
  (raw ∉ trueTokens -> raw ∉ falseTokens ->
     AssignToField dec (TStruct c fs) (Some inst) name raw =
       Done (inst, Some (mkAssignError name raw BoolError))).
Proof.
  intros Hmeta Hmd Hty.
  rewrite (AssignToField_known dec _ _ _ _ _ _ _ Hmeta Hmd), Hty.
  cbn [convert]. rewrite ParseBool_tokens. repeat split.
  - intros H. by rewrite decide_True.
  - intros H. destruct (decide (raw ∈ trueTokens)) as [Ht|_].
    + exfalso. revert H Ht. unfold trueTokens, falseTokens.
      rewrite !elem_of_cons, !elem_of_nil. intros H Ht.
      destruct H as [-> | [-> | [-> | [-> | [-> | [-> | []]]]]]];
        destruct Ht as [? | [? | [? | [? | [? | [? | []]]]]]]; discriminate.
    + by rewrite decide_True.
  - intros Ht Hf. by rewrite !decide_False.
Qed.

(** C5. On a field of pointer type, when the text converts to the pointee
    type the field is afterwards a pointer, not nil, to the converted
    value; when the conversion fails the call returns an error and the
    struct is as it was, so that the field still has its prior value, nil
    in a zeroed struct. *)
Theorem AssignToField_pointer c fs tbl inst name md elem raw :
  StructMetadata (TStruct c fs) = Done tbl ->
  tbl !! name = Some md ->
  MType md = TPtr elem ->
  zeroInstance tbl !! name = Some (VNil : Value Payload) /\
  match convert dec elem raw with
  | inl v =>
      AssignToField dec (TStruct c fs) (Some inst) name raw =
        Done (<[name := VPtr v]> inst, None) /\
      <[name := VPtr v]> inst !! name = Some (VPtr v)
  | inr cause =>
      AssignToField dec (TStruct c fs) (Some inst) name raw =
        Done (inst, Some (mkAssignError name raw cause))
  end.
Proof.
  intros Hmeta Hmd Hty. split.
  - unfold zeroInstance. by rewrite lookup_fmap, Hmd; simpl; rewrite Hty.
  - rewrite (AssignToField_known dec _ _ _ _ _ _ _ Hmeta Hmd), Hty. simpl.
    destruct (convert dec elem raw); [|done].
    split; [done | apply lookup_insert_eq].
Qed.

(** C6. For a field name that is not a key of the metadata table of the
    target struct, the call panics, and the panic names the field. *)
Theorem AssignToField_unknown_field c fs tbl inst name raw :
  StructMetadata (TStruct c fs) = Done tbl ->
  tbl !! name = None ->
  AssignToField dec (TStruct c fs) (Some inst) name raw =
    Panicked ("no field '" +:+ name +:+ "' in struct").
Proof.
  intros Hmeta Hmd. unfold AssignToField. by rewrite Hmeta; simpl; rewrite Hmd.
Qed.


End EngineClaims.

(** ** The claims on the struct of [TestAssign] *)

Lemma testStruct_table : StructMetadata testStruct = Done (tableOf testStruct).
Proof. reflexivity. Defined.

Lemma AssignToField_integer_text_witness :
  StructMetadata testStruct = Done (tableOf testStruct) /\
  tableOf testStruct !! "Int8Value"
  = Some (descriptor [] (field "Int8Value" (TInt W8))) /\
  AssignToField echoDecoders testStruct (Some ∅) "Int8Value" "-32"
  = Done (<["Int8Value" := VInt (-32)]> ∅, None) /\
  AssignToField echoDecoders testStruct (Some ∅) "Int8Value" "200"
  = Done (∅, Some (mkAssignError "Int8Value" "200" RangeError)).
Proof.
  assert (tableOf testStruct !! "Int8Value"
          = Some (descriptor [] (field "Int8Value" (TInt W8)))) as Hmd
    by reflexivity.
  split; [exact testStruct_table|]. split; [exact Hmd|]. split.
  - exact (proj1 (proj1 (AssignToField_integer_text echoDecoders _ _ _ ∅ _ _
                           W8 (-32) testStruct_table Hmd) eq_refl)).
  - exact (proj1 (proj1 (AssignToField_integer_text echoDecoders _ _ _ ∅ _ _
                           W8 200 testStruct_table Hmd) eq_refl)).
Defined.

Lemma AssignToField_bool_tokens_witness :
  StructMetadata testStruct = Done (tableOf testStruct) /\
  tableOf testStruct !! "BoolValue"
  = Some (descriptor [] (field "BoolValue" TBool)) /\
  AssignToField echoDecoders testStruct (Some ∅) "BoolValue" "1"
  = Done (<["BoolValue" := VBool true]> ∅, None) /\
  AssignToField echoDecoders testStruct (Some ∅) "BoolValue" "False"
  = Done (<["BoolValue" := VBool false]> ∅, None) /\
  AssignToField echoDecoders testStruct (Some ∅) "BoolValue" "2"
  = Done (∅, Some (mkAssignError "BoolValue" "2" BoolError)).
Proof.
  assert (tableOf testStruct !! "BoolValue"
          = Some (descriptor [] (field "BoolValue" TBool))) as Hmd
    by reflexivity.
  split; [exact testStruct_table|]. split; [exact Hmd|].
  split; [|split].
  - apply (AssignToField_bool_tokens echoDecoders _ _ _ ∅ _ _ "1"
             testStruct_table Hmd eq_refl).
    apply list_elem_of_In. by left.
  - apply (AssignToField_bool_tokens echoDecoders _ _ _ ∅ _ _ "False"
             testStruct_table Hmd eq_refl).
    apply list_elem_of_In. do 5 right. by left.
  - apply (AssignToField_bool_tokens echoDecoders _ _ _ ∅ _ _ "2"
             testStruct_table Hmd eq_refl);
      intros Hin%list_elem_of_In; cbn in Hin;
      repeat (destruct Hin as [Hin | Hin]; [discriminate Hin|]); done.
Defined.

(** C2 as stated fails: the texts [TRUE] and [t], which the claim gives as
    examples of refused tokens, are taken for true and no error is
    returned. *)
Lemma AssignToField_bool_TRUE_accepted :
  AssignToField echoDecoders testStruct (Some ∅) "BoolValue" "TRUE"
  = Done (<["BoolValue" := VBool true]> ∅, None) /\
  AssignToField echoDecoders testStruct (Some ∅) "BoolValue" "t"
  = Done (<["BoolValue" := VBool true]> ∅, None).
Proof. split; reflexivity. Qed.

Lemma AssignToField_pointer_witness :
  StructMetadata testStruct = Done (tableOf testStruct) /\
  tableOf testStruct !! "IntPtrValue"
  = Some (descriptor [] (field "IntPtrValue" (TPtr (TInt W64)))) /\
  AssignToField echoDecoders testStruct (Some ∅) "IntPtrValue" "123"
  = Done (<["IntPtrValue" := VPtr (VInt 123)]> ∅, None) /\
  AssignToField echoDecoders testStruct
    (Some (zeroInstance (tableOf testStruct))) "IntPtrValue" "12x"
  = Done (zeroInstance (tableOf testStruct),
          Some (mkAssignError "IntPtrValue" "12x" FormatError)) /\
  zeroInstance (tableOf testStruct) !! "IntPtrValue" = Some (VNil : Value string).
Proof.
  assert (tableOf testStruct !! "IntPtrValue"
          = Some (descriptor [] (field "IntPtrValue" (TPtr (TInt W64)))))
    as Hmd by reflexivity.
  split; [exact testStruct_table|]. split; [exact Hmd|]. split; [|split].
  - exact (proj1 (proj2 (AssignToField_pointer echoDecoders _ _ _ ∅ _ _ _ "123"
                           testStruct_table Hmd eq_refl))).
  - exact (proj2 (AssignToField_pointer echoDecoders _ _ _
                    (zeroInstance (tableOf testStruct)) _ _ _ "12x"
                    testStruct_table Hmd eq_refl)).
  - exact (proj1 (AssignToField_pointer echoDecoders _ _ _ ∅ _ _ _ "12x"
                    testStruct_table Hmd eq_refl)).
Defined.

Lemma AssignToField_unknown_field_witness :
  StructMetadata testStruct = Done (tableOf testStruct) /\
  tableOf testStruct !! "NonExistentField" = None /\
  AssignToField echoDecoders testStruct (Some ∅) "NonExistentField" "some value"
  = Panicked "no field 'NonExistentField' in struct".
Proof.
  assert (tableOf testStruct !! "NonExistentField" = None) as Hmd
    by reflexivity.
  split; [exact testStruct_table|]. split; [exact Hmd|].
  exact (AssignToField_unknown_field echoDecoders _ _ _ ∅ _ "some value"
           testStruct_table Hmd).
Defined.

Lemma testStruct_reaches_deep :
  reaches testStruct ["testEmbeddedStruct"; "testDeepEmbeddedStruct"]
          (field "DeepEmbeddedValue" (TPtr TString)).
Proof.
  apply (reaches_through _ (embedded "testEmbeddedStruct" testEmbeddedStruct));
    [apply list_elem_of_In; by left | done |].
  apply (reaches_through _
           (embedded "testDeepEmbeddedStruct" testDeepEmbeddedStruct));
    [apply list_elem_of_In; by left | done |].
  apply reaches_here; [apply list_elem_of_In; by left | done].
Defined.


(** ** The HTTP parameter binder *)

Section DecodeFacts.
Context {P : Type}.
Variable AssignField : P -> string -> string -> P + string.
Variable JSONDecode : string -> P -> P + string.
Variable ToLower : string -> string.
Variable EqualFold : string -> string -> bool.
Variable CanonicalMIMEHeaderKey : string -> string.
Variable ContentType : string.
Variable ContentTypeApplicationJson : string.
Variable QueryTag : string.
Variable HeaderTag : string.

Lemma bindEntries_app src lookup before after params :
  bindEntries AssignField ToLower src lookup (before ++ after) params =
  match bindEntries AssignField ToLower src lookup before params with
  | inl params' => bindEntries AssignField ToLower src lookup after params'
  | inr err => inr err
  end.
Proof.
  revert params. induction before as [|[name values] before IH];
    intros params; simpl; [done|].
  destruct (lookup !! ToLower name) as [fieldName|]; [|apply IH].
  destruct values as [|value [|]]; try done.
  destruct (AssignField params fieldName value); [apply IH | done].
Qed.

Lemma bindEntries_rejects src lookup entries params name values fieldName :
  (name, values) ∈ entries ->
  lookup !! ToLower name = Some fieldName ->
  length values <> 1%nat ->
  exists err, bindEntries AssignField ToLower src lookup entries params = inr err.
Proof.
  intros (before & after & ->)%list_elem_of_split Hfield Hlen.
  rewrite bindEntries_app.
  destruct (bindEntries AssignField ToLower src lookup before params); [|by eexists].
  simpl. rewrite Hfield.
  destruct values as [|value [|]]; simpl in *; try lia; by eexists.
Qed.

Lemma bindEntries_allSingle src lookup entries :
  allSingle ToLower lookup entries ->
  forall params,
    bindEntries AssignField ToLower src lookup entries params
    = assignAll AssignField src (calls ToLower lookup entries) params.
Proof.
  unfold allSingle, calls.
  induction 1 as [|[name values] entries Hone _ IH]; intros params; [done|].
  cbn [bindEntries omap list_omap fst snd] in *.
  destruct (lookup !! ToLower name) as [fieldName|]; [|apply IH].
  specialize (Hone ltac:(by eexists)).
  destruct values as [|value [|]]; try done.
  cbn [assignAll]. destruct (AssignField params fieldName value); [apply IH|done].
Qed.

Lemma rangeOf_elem m entries name values :
  rangeOf m entries -> m !! name = Some values -> (name, values) ∈ entries.
Proof.
  unfold rangeOf. intros Hperm Hm. rewrite Hperm.
  by apply elem_of_map_to_list.
Qed.

Lemma bindEntries_one_value src lookup before after params params'
    name value fieldName :
  lookup !! ToLower name = Some fieldName ->
  allSingle ToLower lookup before ->
  assignAll AssignField src (calls ToLower lookup before) params
  = inl params' ->
  bindEntries AssignField ToLower src lookup
    (before ++ (name, [value]) :: after) params
  = match AssignField params' fieldName value with
    | inr err => inr (FailedToSetValue src name [value] err)
    | inl params'' =>
        bindEntries AssignField ToLower src lookup after params''
    end.
Proof.
  intros Hfield Hbefore Hrun.
  rewrite bindEntries_app, (bindEntries_allSingle _ _ _ Hbefore), Hrun.
  cbn [bindEntries]. by rewrite Hfield.
Qed.

(** C7. A key of the query string or of the headers that matches a field
    tagged for that source must come with one value. With none or with two
    or more, the pass returns an error. With exactly one, once the entries
    ranged over before it, each with one value where it matches a field,
    have been assigned without error, the pass hands that value and the
    matched field to the assignment engine, on the struct these assignments
    have left: when the engine refuses it, the pass returns this refusal
    under the name of the key; when the engine accepts it and the entries
    that follow carry one value each, the pass returns what the assignments
    they ask for make of the struct. This holds for every order in which the
    map of the request is ranged over. *)
Theorem decode_one_value_per_key
    params tags lookup m entries name values fieldName :
  rangeOf m entries ->
  m !! name = Some values ->
  lookup !! ToLower name = Some fieldName ->
  (tags !! QueryTag = Some lookup ->
     (length values <> 1%nat ->
      exists err,
        decodeQueryParameters AssignField ToLower QueryTag params tags entries
        = Done (inr err)) /\
     (forall value,
         values = [value] ->
         (exists before after,
             entries = (before ++ (name, [value]) :: after)%list) /\
         (forall before after params',
             entries = (before ++ (name, [value]) :: after)%list ->
             allSingle ToLower lookup before ->
             assignAll AssignField FromQuery (calls ToLower lookup before)
               params = inl params' ->
             (forall err,
                 AssignField params' fieldName value = inr err ->
                 decodeQueryParameters AssignField ToLower QueryTag params
                   tags entries
                 = Done (inr (FailedToSetValue FromQuery name [value] err)))
             /\
             (forall params'',
                 AssignField params' fieldName value = inl params'' ->
                 allSingle ToLower lookup after ->
                 decodeQueryParameters AssignField ToLower QueryTag params
                   tags entries
                 = Done (assignAll AssignField FromQuery
                           (calls ToLower lookup after) params''))))) /\
  (tags !! HeaderTag = Some lookup ->
     (length values <> 1%nat ->
      exists err,
        decodeHeaderParameters AssignField ToLower HeaderTag params tags
          entries
        = Done (inr err)) /\
     (forall value,
         values = [value] ->
         (exists before after,
             entries = (before ++ (name, [value]) :: after)%list) /\
         (forall before after params',
             entries = (before ++ (name, [value]) :: after)%list ->
             allSingle ToLower lookup before ->
             assignAll AssignField FromHeader (calls ToLower lookup before)
               params = inl params' ->
             (forall err,
                 AssignField params' fieldName value = inr err ->
                 decodeHeaderParameters AssignField ToLower HeaderTag params
                   tags entries
                 = Done (inr (FailedToSetValue FromHeader name [value] err)))
             /\
             (forall params'',
                 AssignField params' fieldName value = inl params'' ->
                 allSingle ToLower lookup after ->
                 decodeHeaderParameters AssignField ToLower HeaderTag params
                   tags entries
                 = Done (assignAll AssignField FromHeader
                           (calls ToLower lookup after) params''))))).
Proof.
  intros Hrange Hm Hfield.
  pose proof (rangeOf_elem _ _ _ _ Hrange Hm) as Hin.
  split; intros Htag; (split; [intros Hlen | intros value ->]).
  - unfold decodeQueryParameters. rewrite Htag.
    destruct (bindEntries_rejects FromQuery lookup entries params
                _ _ _ Hin Hfield Hlen) as [err ->]. by eexists.
  - split; [by apply list_elem_of_split|].
    intros before after params' -> Hbefore Hrun.
    unfold decodeQueryParameters. rewrite Htag.
    rewrite (bindEntries_one_value FromQuery lookup before after params
               params' name value fieldName Hfield Hbefore Hrun).
    split.
    + by intros err ->.
    + intros params'' -> Hafter. by rewrite bindEntries_allSingle.
  - unfold decodeHeaderParameters. rewrite Htag.
    destruct (bindEntries_rejects FromHeader lookup entries params
                _ _ _ Hin Hfield Hlen) as [err ->]. by eexists.
  - split; [by apply list_elem_of_split|].
    intros before after params' -> Hbefore Hrun.
    unfold decodeHeaderParameters. rewrite Htag.
    rewrite (bindEntries_one_value FromHeader lookup before after params
               params' name value fieldName Hfield Hbefore Hrun).
    split.
    + by intros err ->.
    + intros params'' -> Hafter. by rewrite bindEntries_allSingle.
Qed.

(** C9. The JSON body is decoded into the parameter struct exactly when
    the first value of the Content-Type header is equal, under
    [strings.EqualFold], to the JSON content type. For any other value,
    and for a request without the header, the pass returns no error and
    the struct as it was, whatever the body is. *)
Theorem decodeJSONBodyParameters_content_type params request :
  (EqualFold (HeaderGet CanonicalMIMEHeaderKey (Header request) ContentType)
             ContentTypeApplicationJson = true ->
   decodeJSONBodyParameters JSONDecode EqualFold CanonicalMIMEHeaderKey
     ContentType ContentTypeApplicationJson params request =
   match JSONDecode (Body request) params with
   | inr err => inr (FailedToDecodeJSON err)
   | inl params' => inl params'
   end) /\
  (EqualFold (HeaderGet CanonicalMIMEHeaderKey (Header request) ContentType)
             ContentTypeApplicationJson = false ->
   forall body,
     decodeJSONBodyParameters JSONDecode EqualFold CanonicalMIMEHeaderKey
       ContentType ContentTypeApplicationJson params
       (mkRequest (Header request) (URLQuery request) body)
     = inl params) /\
  (Header request !! CanonicalMIMEHeaderKey ContentType = None ->
   EqualFold EmptyString ContentTypeApplicationJson = false ->
   forall body,
     decodeJSONBodyParameters JSONDecode EqualFold CanonicalMIMEHeaderKey
       ContentType ContentTypeApplicationJson params
       (mkRequest (Header request) (URLQuery request) body)
     = inl params).
Proof.
  unfold decodeJSONBodyParameters. repeat split.
  - by intros ->.
  - intros Hne body. simpl. by rewrite Hne.
  - intros Habsent Hempty body. simpl.
    unfold HeaderGet. by rewrite Habsent, Hempty.
Qed.

End DecodeFacts.

(** ** The binder on a small request *)

Lemma allSingle_nil lookup : allSingle asciiToLower lookup [].
Proof. constructor. Defined.

Lemma decode_one_value_per_key_witness :
  (exists err,
      decodeQueryParameters toyAssign asciiToLower "urlQuery" ∅ toyTags
        [("Limit", ["10"; "20"])]
      = Done (inr err)) /\
  decodeQueryParameters logAssign asciiToLower "urlQuery" [] toyTags
    [("Limit", ["10"])]
  = Done (inl [("Limit", "10")]) /\
  decodeQueryParameters toyAssign asciiToLower "urlQuery" ∅ toyTags
    [("Limit", [""])]
  = Done (inr (FailedToSetValue FromQuery "Limit" [""] "empty value")).
Proof.
  assert (forall values,
             rangeOf {[ "Limit" := values ]} [("Limit", values)]) as Hrange
    by (intros values; unfold rangeOf; by rewrite map_to_list_singleton).
  assert (forall values : list string,
             ({[ "Limit" := values ]} : gmap string (list string)) !! "Limit"
             = Some values) as Hm by (intros values; apply lookup_singleton_eq).
  assert (({[ "limit" := "Limit" ]} : gmap string string)
            !! asciiToLower "Limit" = Some "Limit") as Hfield by reflexivity.
  assert (toyTags !! "urlQuery" = Some {[ "limit" := "Limit" ]}) as Htag
    by reflexivity.
  split; [|split].
  - apply (proj1 (proj1 (decode_one_value_per_key toyAssign asciiToLower
                           "urlQuery" "httpHeader" ∅ toyTags _ _ _ _ _ _
                           (Hrange ["10"; "20"]) (Hm ["10"; "20"]) Hfield)
                    Htag)).
    cbn [length]. lia.
  - exact (proj2 (proj2 (proj2 (proj1 (decode_one_value_per_key logAssign
                                         asciiToLower "urlQuery" "httpHeader"
                                         [] toyTags _ _ _ _ _ _
                                         (Hrange ["10"]) (Hm ["10"]) Hfield)
                                  Htag) "10" eq_refl)
                    [] [] [] eq_refl (allSingle_nil _) eq_refl)
             [("Limit", "10")] eq_refl (allSingle_nil _)).
  - exact (proj1 (proj2 (proj2 (proj1 (decode_one_value_per_key toyAssign
                                         asciiToLower "urlQuery" "httpHeader"
                                         ∅ toyTags _ _ _ _ _ _
                                         (Hrange [""]) (Hm [""]) Hfield)
                                  Htag) "" eq_refl)
                    [] [] ∅ eq_refl (allSingle_nil _) eq_refl)
             "empty value" eq_refl).
Defined.

Lemma decodeJSONBodyParameters_content_type_witness :
  asciiEqualFold
    (HeaderGet (fun key => key)
       (Header (toyRequest ["Application/JSON"] "{}")) "Content-Type")
    "application/json" = true /\
  decodeJSONBodyParameters toyJSONDecode asciiEqualFold (fun key => key)
    "Content-Type" "application/json" ∅
    (toyRequest ["Application/JSON"] "{}") = inl ∅ /\
  asciiEqualFold
    (HeaderGet (fun key => key)
       (Header (toyRequest ["text/plain"] "{}")) "Content-Type")
    "application/json" = false /\
  decodeJSONBodyParameters toyJSONDecode asciiEqualFold (fun key => key)
    "Content-Type" "application/json" ∅
    (toyRequest ["text/plain"] "not json") = inl ∅.
Proof.
  assert (asciiEqualFold
            (HeaderGet (fun key => key)
               (Header (toyRequest ["Application/JSON"] "{}")) "Content-Type")
            "application/json" = true) as Hjson by reflexivity.
  assert (asciiEqualFold
            (HeaderGet (fun key => key)
               (Header (toyRequest ["text/plain"] "{}")) "Content-Type")
            "application/json" = false) as Hplain by reflexivity.
  split; [exact Hjson|]. split; [|split; [exact Hplain|]].
  - exact (proj1 (decodeJSONBodyParameters_content_type toyJSONDecode
                    asciiEqualFold (fun key => key) "Content-Type"
                    "application/json" ∅ (toyRequest ["Application/JSON"] "{}"))
             Hjson).
  - exact (proj1 (proj2 (decodeJSONBodyParameters_content_type toyJSONDecode
                           asciiEqualFold (fun key => key) "Content-Type"
                           "application/json" ∅
                           (toyRequest ["text/plain"] "{}")))
             Hplain "not json").
Defined.

Lemma StructMetadata_keys_witness :
  StructMetadata testStruct = Done (tableOf testStruct) /\
  NoDup (leafNames testStruct) /\
  exists md,
    tableOf testStruct !! "DeepEmbeddedValue" = Some md /\
    MAnonymous md = ["testEmbeddedStruct"; "testDeepEmbeddedStruct"] /\
    Anonymous (field "DeepEmbeddedValue" (TPtr TString)) = false.
Proof.
  pose proof (StructMetadata_keys testStruct (tableOf testStruct)
                testStruct_table) as (_ & Hnd & Hreach).
  split; [exact testStruct_table|]. split; [exact Hnd|].
  exact (Hreach _ _ testStruct_reaches_deep).
Defined.

(** * Further properties *)

(** ** Metadata extraction: when it returns, and what it reports *)

Lemma allSome_omap evs : allSome evs -> evs = Some <$> omap id evs.
Proof.
  unfold allSome. induction 1 as [|e evs [x ->] _ IH]; [done|].
  cbn. by rewrite <- IH.
Qed.

Lemma scan_firstClash ls :
  forall m,
    scan m (Some <$> ls) =
    match firstClash (dom m) ls.*1 with
    | Some n => Panicked (ambiguous n)
    | None => Done (fold_left (fun m p => <[p.1 := p.2]> m) ls m)
    end.
Proof.
  induction ls as [|[n md] ls IH]; intros m; [done|].
  cbn [fmap list_fmap scan firstClash fst].
  destruct (m !! n) eqn:Hn.
  - rewrite decide_True; [done|]. apply elem_of_dom. by eexists.
  - rewrite decide_False by (by apply not_elem_of_dom).
    rewrite IH, dom_insert_L. done.
Qed.

Lemma StructMetadata_table T tbl :
  StructMetadata T = Done tbl -> tbl = list_to_map (leaves T []).
Proof.
  intros (_ & Hnd & Hlook)%StructMetadata_Done.
  apply map_eq. intros n. apply option_eq. intros md.
  rewrite Hlook. by apply elem_of_list_to_map.
Qed.

(** X1. Metadata extraction returns a table exactly when the walk meets
    struct types only (a struct or a pointer to a struct wherever a field is
    anonymous, and at the top) and no leaf name twice; the table is then the
    list of the leaf descriptors, as a map. In every other case it panics. *)
Theorem StructMetadata_Done_iff (T : GoType) (tbl : Table) :
  StructMetadata T = Done tbl <->
  structural T = true /\ NoDup (leafNames T) /\
  tbl = list_to_map (leaves T []).
Proof.
  split.
  - intros Hmeta. pose proof (StructMetadata_table _ _ Hmeta).
    apply StructMetadata_Done in Hmeta as (? & ? & _). done.
  - intros (Hs & Hnd & ->).
    destruct (StructMetadata_total T Hs Hnd) as [tbl Hmeta].
    by rewrite <- (StructMetadata_table _ _ Hmeta).
Qed.

(** X2. When the walk meets struct types only, the panic of a name clash
    names the first field, in declaration order with the anonymous fields
    expanded in place, whose name has already been met. *)
Theorem StructMetadata_first_clash (T : GoType) :
  structural T = true ->
  StructMetadata T =
  match firstClash ∅ (leafNames T) with
  | Some n => Panicked (ambiguous n)
  | None => Done (list_to_map (leaves T []))
  end.
Proof.
  intros Hs%(structural_allSome T []).
  pose proof (StructMetadata_table T) as Htable.
  rewrite StructMetadata_scan in *.
  rewrite (allSome_omap _ Hs) in Htable |- * at 1.
  rewrite scan_firstClash in Htable |- *. rewrite dom_empty_L in *.
  change ((omap id (events T [])).*1) with (leafNames T) in *.
  destruct (firstClash ∅ (leafNames T)); [done|].
  f_equal. by apply Htable.
Qed.

Lemma StructMetadata_first_clash_witness :
  structural twoEmbedded = true /\
  StructMetadata twoEmbedded = Panicked "field X is ambiguous".
Proof.
  split; [reflexivity|].
  exact (StructMetadata_first_clash twoEmbedded eq_refl).
Defined.

(** X3. One pointer is looked through, at the top and at an anonymous
    field: the metadata of a pointer to a struct is the metadata of the
    struct, and an embedded pointer to a struct is flattened as the embedded
    struct is. *)
Theorem StructMetadata_pointer_transparent c fs :
  StructMetadata (TPtr (TStruct c fs)) = StructMetadata (TStruct c fs) /\
  forall c0 before after name tg,
    StructMetadata
      (TStruct c0 (before ++ mkField name (TPtr (TStruct c fs)) tg true
                     :: after))
    = StructMetadata
        (TStruct c0 (before ++ mkField name (TStruct c fs) tg true :: after)).
Proof.
  split; [reflexivity|]. intros c0 before after name tg.
  rewrite !StructMetadata_scan, !events_struct, !fieldsEvents_app,
    !fieldsEvents_cons.
  unfold fieldEvents. cbn [Anonymous Type_ Name].
  by rewrite events_ptr.
Qed.

(** X4. Any other type panics with the message of the kind check: a type
    that is not a struct, a pointer to such a type and, since one pointer
    only is looked through, a pointer to a pointer to a struct. *)
Theorem StructMetadata_kind_guard (T : GoType) :
  isStruct (deref T) = false ->
  StructMetadata T = Panicked notAStruct.
Proof.
  intros Hk. rewrite StructMetadata_scan, events_deref.
  by destruct (deref T).
Qed.

Lemma StructMetadata_kind_guard_witness :
  isStruct (deref (TPtr (TPtr structA))) = false /\
  StructMetadata (TPtr (TPtr structA))
  = Panicked "Type must be a struct or a pointer to a struct.".
Proof.
  split; [reflexivity|].
  exact (StructMetadata_kind_guard (TPtr (TPtr structA)) eq_refl).
Defined.

Lemma fieldEvents_leaf_names chain f :
  Anonymous f = false -> evNames (fieldEvents chain f) = [Name f].
Proof. intros Ha. unfold fieldEvents. by rewrite Ha. Qed.

Lemma fields_clash_occursTwice chain fs (i j : nat) fi fj n :
  i <> j -> fs !! i = Some fi -> fs !! j = Some fj ->
  n ∈ evNames (fieldEvents chain fi) -> n ∈ evNames (fieldEvents chain fj) ->
  occursTwice n (evNames (fieldsEvents chain fs)).
Proof.
  assert (forall (i j : nat) fi fj, (i < j)%nat ->
            fs !! i = Some fi -> fs !! j = Some fj ->
            n ∈ evNames (fieldEvents chain fi) ->
            n ∈ evNames (fieldEvents chain fj) ->
            occursTwice n (evNames (fieldsEvents chain fs))) as Hord.
  { clear. intros i j fi fj Hlt Hi Hj Hni Hnj.
    destruct (lookup_two_split _ _ _ _ _ Hlt Hi Hj) as (l1 & l2 & l3 & ->).
    rewrite fieldsEvents_app, fieldsEvents_cons, fieldsEvents_app,
      fieldsEvents_cons, !evNames_app.
    by apply occursTwice_middle. }
  intros Hne Hi Hj Hni Hnj.
  destruct (decide (i < j)%nat); [by eapply (Hord i j)|].
  eapply (Hord j i); eauto. lia.
Qed.

(** X5. No shadowing: a field declared in a struct under the name of a leaf
    field of one of its embedded structs makes the extraction panic, in
    whichever order the two are declared, although Go accepts such a
    struct. *)
Theorem StructMetadata_no_shadowing (T : GoType) f g :
  f ∈ fieldsOf T -> g ∈ fieldsOf T ->
  Anonymous f = false -> Anonymous g = true ->
  Name f ∈ leafNames (Type_ g) ->
  exists msg, StructMetadata T = Panicked msg.
Proof.
  intros [i Hi]%list_elem_of_lookup [j Hj]%list_elem_of_lookup Hf Hg Hin.
  assert (i <> j) as Hne by (intros ->; congruence).
  destruct (StructMetadata T) as [tbl|msg] eqn:Hmeta; [|by eexists].
  apply StructMetadata_Done in Hmeta as (_ & Hnd & _). exfalso.
  revert Hnd. apply (occursTwice_not_NoDup (Name f)).
  rewrite leafNames_evNames, events_deref.
  unfold fieldsOf in Hi, Hj.
  destruct (deref T); try (by rewrite lookup_nil in Hi).
  apply (fields_clash_occursTwice [] fields i j f g); try done.
  - rewrite fieldEvents_leaf_names by done. by apply list_elem_of_singleton.
  - by rewrite fieldEvents_anonymous_names.
Qed.

Lemma StructMetadata_no_shadowing_witness :
  field "X" TString ∈ fieldsOf shadowing /\
  embedded "Inner" structA ∈ fieldsOf shadowing /\
  "X" ∈ leafNames structA /\
  exists msg, StructMetadata shadowing = Panicked msg.
Proof.
  assert (field "X" TString ∈ fieldsOf shadowing) as Hf
    by (apply list_elem_of_In; right; by left).
  assert (embedded "Inner" structA ∈ fieldsOf shadowing) as Hg
    by (apply list_elem_of_In; by left).
  assert ("X" ∈ leafNames structA) as Hin
    by (apply list_elem_of_In; by left).
  split; [exact Hf|]. split; [exact Hg|]. split; [exact Hin|].
  exact (StructMetadata_no_shadowing shadowing _ _ Hf Hg eq_refl eq_refl Hin).
Defined.

(** ** The tag pattern *)

Lemma list_ascii_of_string_app a b :
  list_ascii_of_string (a +:+ b)
  = (list_ascii_of_string a ++ list_ascii_of_string b)%list.
Proof.
  induction a as [|c a IH]; [done|].
  change (list_ascii_of_string (String c a +:+ b))
    with (c :: list_ascii_of_string (a +:+ b)).
  by rewrite IH.
Qed.

Lemma tagScan_word k :
  forall w s,
    forallb isWord k = true ->
    tagScan (InWord w) (k ++ s) = tagScan (InWord (rev k ++ w)) s.
Proof.
  induction k as [|c k IH]; intros w s Hk; [done|].
  cbn [forallb] in Hk. apply andb_prop in Hk as [Hc Hk].
  cbn [app tagScan tagStep rev]. rewrite Hc, IH by done.
  by rewrite <- app_assoc.
Qed.

Lemma tagScan_value v :
  forall w v0 q s,
    forallb (fun c => negb (isQuote c)) v = true -> isQuote q = true ->
    tagScan (InValue w v0) (v ++ q :: s)
    = (revString w, revString (rev v ++ v0)) :: tagScan Idle s.
Proof.
  induction v as [|c v IH]; intros w v0 q s Hv Hq.
  - cbn [app tagScan tagStep rev]. by rewrite Hq.
  - cbn [forallb] in Hv. apply andb_prop in Hv as [Hc Hv].
    apply negb_true_iff in Hc.
    cbn [app tagScan tagStep rev]. rewrite Hc, (IH _ _ q) by done.
    by rewrite <- app_assoc.
Qed.

Lemma wordKey_chars k :
  wordKey k = true ->
  exists c cs, list_ascii_of_string k = c :: cs /\ isWord c = true /\
               forallb isWord cs = true.
Proof.
  destruct k as [|c k]; [done|]. unfold wordKey.
  cbn [list_ascii_of_string forallb]. intros [Hc Hk]%andb_prop.
  by exists c, (list_ascii_of_string k).
Qed.

Lemma revString_rev l : revString (rev l) = string_of_list_ascii l.
Proof. unfold revString. by rewrite rev_involutive. Qed.

Lemma tagScan_tag k v s :
  wordKey k = true -> quoteFree v = true ->
  tagScan Idle (list_ascii_of_string (tag k v) ++ s)
  = (k, v) :: tagScan Idle s.
Proof.
  intros (c & cs & Hk & Hc & Hcs)%wordKey_chars Hv.
  unfold tag, quoted.
  rewrite !list_ascii_of_string_app, Hk.
  change (list_ascii_of_string ":") with [":"%char].
  cbn [list_ascii_of_string]. rewrite list_ascii_of_string_app.
  cbn [list_ascii_of_string].
  rewrite <- !app_assoc. cbn [app tagScan tagStep]. rewrite Hc.
  rewrite tagScan_word by done.
  cbn [app tagScan tagStep].
  change (isWord ":") with false. change (isColon ":") with true.
  cbn iota. cbn [tagScan tagStep].
  change (isQuote (ascii_of_nat 34)) with true. cbn iota.
  rewrite <- app_assoc. cbn [app].
  rewrite (tagScan_value _ _ _ (ascii_of_nat 34)) by done.
  rewrite app_nil_r.
  change (rev cs ++ [c])%list with (rev (c :: cs)).
  by rewrite !revString_rev, <- Hk, !string_of_list_ascii_of_string.
Qed.

(** X6. A tag written the conventional way, pairs of a key made of word
    characters and a quoted value without a double quote, separated by a
    space, is read back as these pairs, in order; the [Tags] of the
    descriptor map every key to its value when no key is repeated. *)
Theorem FindAllStringSubmatch_tagString (kvs : list (string * string)) :
  forallb validPair kvs = true ->
  FindAllStringSubmatch (tagString kvs) = kvs /\
  (NoDup kvs.*1 ->
   forall k v, (k, v) ∈ kvs -> parseTags (tagString kvs) !! k = Some v).
Proof.
  intros Hvalid.
  assert (FindAllStringSubmatch (tagString kvs) = kvs) as Hfind.
  { unfold FindAllStringSubmatch.
    induction kvs as [|[k v] rest IH]; [done|].
    cbn [forallb] in Hvalid. apply andb_prop in Hvalid as [Hkv Hrest].
    unfold validPair in Hkv. apply andb_prop in Hkv as [Hk Hv].
    cbn [fst snd] in Hk, Hv. specialize (IH Hrest).
    cbn [tagString]. destruct rest as [|kv rest].
    - rewrite <- (app_nil_r (list_ascii_of_string (tag k v))).
      by rewrite tagScan_tag.
    - rewrite list_ascii_of_string_app, tagScan_tag by done.
      rewrite list_ascii_of_string_app.
      change (list_ascii_of_string " ") with [" "%char].
      cbn [app tagScan tagStep]. change (isWord " ") with false.
      cbn iota. by rewrite IH. }
  split; [done|]. intros Hnd k v Hin.
  unfold parseTags. rewrite Hfind. clear Hfind Hvalid.
  generalize (∅ : gmap string string) as m.
  induction kvs as [|[k' v'] rest IH]; intros m.
  - by apply not_elem_of_nil in Hin.
  - cbn [fmap list_fmap fst] in Hnd. apply NoDup_cons in Hnd as [Hk' Hnd].
    cbn [fold_left fst snd].
    apply elem_of_cons in Hin as [[= -> ->] | Hin]; [|by apply IH].
    clear IH. revert m. induction rest as [|[k2 v2] rest IH]; intros m.
    + apply lookup_insert_eq.
    + cbn [fold_left fst snd].
      apply not_elem_of_cons in Hk' as [Hne Hk'].
      apply NoDup_cons in Hnd as [_ Hnd].
      rewrite insert_insert_ne by done. by apply IH.
Qed.

Lemma FindAllStringSubmatch_tagString_witness :
  forallb validPair [("config_format", "snake"); ("config_default", "8 0")]
  = true /\
  FindAllStringSubmatch
    (tagString [("config_format", "snake"); ("config_default", "8 0")])
  = [("config_format", "snake"); ("config_default", "8 0")].
Proof.
  split; [reflexivity|].
  exact (proj1 (FindAllStringSubmatch_tagString
                  [("config_format", "snake"); ("config_default", "8 0")]
                  eq_refl)).
Defined.

Lemma tagScan_no_quote s :
  forall st,
    forallb (fun c => negb (isQuote c)) s = true -> tagScan st s = [].
Proof.
  induction s as [|c s IH]; intros st Hs; [done|].
  cbn [forallb] in Hs. apply andb_prop in Hs as [Hc Hs].
  apply negb_true_iff in Hc. cbn [tagScan].
  destruct st; cbn [tagStep]; rewrite ?Hc;
    repeat (case_match; simplify_eq); by apply IH.
Qed.

(** X7. A tag without a double quote, such as [json:value], gives no tag at
    all: the [Tags] of the field are empty. *)
Theorem parseTags_no_quote (tg : string) :
  quoteFree tg = true -> parseTags tg = ∅.
Proof.
  intros Hq. unfold parseTags, FindAllStringSubmatch.
  by rewrite tagScan_no_quote.
Qed.

Lemma parseTags_no_quote_witness :
  quoteFree "json:value validate:required" = true /\
  parseTags "json:value validate:required" = ∅.
Proof.
  split; [reflexivity|].
  exact (parseTags_no_quote "json:value validate:required" eq_refl).
Defined.

Lemma forallb_rev {A} (p : A -> bool) l :
  forallb p l = true -> forallb p (rev l) = true.
Proof.
  rewrite !forallb_forall. intros H x Hx. apply H. by apply in_rev.
Qed.

Lemma wordKey_revString w :
  w <> [] -> forallb isWord w = true -> wordKey (revString w) = true.
Proof.
  intros Hne Hw. unfold wordKey, revString.
  destruct (rev w) as [|c l] eqn:Hrev.
  - apply (f_equal (@rev ascii)) in Hrev.
    rewrite rev_involutive in Hrev. done.
  - cbn [string_of_list_ascii].
    change (String c (string_of_list_ascii l))
      with (string_of_list_ascii (c :: l)).
    rewrite list_ascii_of_string_of_list_ascii, <- Hrev.
    by apply forallb_rev.
Qed.

Lemma quoteFree_revString v :
  forallb (fun c => negb (isQuote c)) v = true ->
  quoteFree (revString v) = true.
Proof.
  intros Hv. unfold quoteFree, revString.
  rewrite list_ascii_of_string_of_list_ascii. by apply forallb_rev.
Qed.

Lemma tagStep_OK st c :
  scanOK st ->
  scanOK (tagStep st c).1 /\
  forall kv, (tagStep st c).2 = Some kv -> validPair kv = true.
Proof.
  destruct st as [|w|w|w v]; cbn [tagStep scanOK].
  - intros _. destruct (isWord c) eqn:Hc; cbn [fst snd scanOK].
    + split; [|done]. split; [done|]. cbn [forallb]. by rewrite Hc.
    + done.
  - intros [Hne Hw]. destruct (isWord c) eqn:Hc; cbn [fst snd scanOK].
    + split; [|done]. split; [done|]. cbn [forallb]. by rewrite Hc.
    + destruct (isColon c); cbn [fst snd scanOK]; done.
  - intros [Hne Hw]. destruct (isQuote c); cbn [fst snd scanOK]; [done|].
    destruct (isWord c) eqn:Hc; cbn [fst snd scanOK]; [|done].
    split; [|done]. split; [done|]. cbn [forallb]. by rewrite Hc.
  - intros [[Hne Hw] Hv]. destruct (isQuote c) eqn:Hc; cbn [fst snd scanOK].
    + split; [done|]. intros kv [= <-]. unfold validPair. cbn [fst snd].
      by rewrite wordKey_revString, quoteFree_revString.
    + split; [|done]. split; [done|]. cbn [forallb]. by rewrite Hc.
Qed.

Lemma tagScan_OK s :
  forall st kv, scanOK st -> kv ∈ tagScan st s -> validPair kv = true.
Proof.
  induction s as [|c s IH]; intros st kv Hst Hin.
  - by apply not_elem_of_nil in Hin.
  - cbn [tagScan] in Hin. destruct (tagStep_OK st c Hst) as [Hst' Hout].
    destruct (tagStep st c) as [st' [m|]]; cbn [fst snd] in *.
    + apply elem_of_cons in Hin as [-> | Hin]; [by apply Hout | by eapply IH].
    + by eapply IH.
Qed.

Lemma fold_insert_lookup (l : list (string * string)) :
  forall (m : gmap string string) k v,
    fold_left (fun tags p => <[p.1 := p.2]> tags) l m !! k = Some v ->
    m !! k = Some v \/ (k, v) ∈ l.
Proof.
  induction l as [|[k' v'] l IH]; intros m k v; cbn [fold_left fst snd].
  - by left.
  - intros [Hm | Hin]%IH; [|right; by right].
    destruct (decide (k' = k)) as [-> | Hne].
    + rewrite lookup_insert_eq in Hm. injection Hm as ->. right. by left.
    + rewrite lookup_insert_ne in Hm by done. by left.
Qed.

(** X8. Whatever the tag is, every key of [Tags] is a non-empty run of word
    characters (letters, digits, underscore) and no value holds a double
    quote. *)
Theorem parseTags_keys_values (tg k v : string) :
  parseTags tg !! k = Some v ->
  wordKey k = true /\ quoteFree v = true.
Proof.
  unfold parseTags. intros [Hm | Hin]%fold_insert_lookup.
  - by rewrite lookup_empty in Hm.
  - apply andb_prop. by apply (tagScan_OK _ Idle (k, v) I Hin).
Qed.

Lemma parseTags_keys_values_witness :
  parseTags ("a:b:" +:+ quoted "x y") !! "b" = Some "x y" /\
  wordKey "b" = true /\ quoteFree "x y" = true.
Proof.
  assert (parseTags ("a:b:" +:+ quoted "x y") !! "b" = Some "x y") as Hin
    by reflexivity.
  split; [exact Hin|].
  exact (parseTags_keys_values _ _ _ Hin).
Defined.

(** ** The binder: unmatched keys, iteration order, path values, stages *)

Section DecodeMoreFacts.
Context {P : Type}.
Variable AssignField : P -> string -> string -> P + string.
Variable JSONDecode : string -> P -> P + string.
Variable ToLower : string -> string.
Variable EqualFold : string -> string -> bool.
Variable CanonicalMIMEHeaderKey : string -> string.
Variable ContentType : string.
Variable ContentTypeApplicationJson : string.
Variable QueryTag : string.
Variable HeaderTag : string.
Variable PathTag : string.
Variable Validate : P -> option string.
Variable PathValue : string -> string.

(** X9. The keys of the query string and of the headers that match no
    tagged field are ignored, whatever values they carry: each pass gives
    what it gives on the matching entries alone. *)
Theorem bindEntries_ignores_unmatched src lookup entries params :
  bindEntries AssignField ToLower src lookup entries params =
  bindEntries AssignField ToLower src lookup
    (List.filter (matchesField ToLower lookup) entries) params.
Proof.
  revert params. induction entries as [|[name values] entries IH];
    intros params; [done|].
  cbn [List.filter bindEntries]. unfold matchesField at 1. cbn [fst].
  destruct (lookup !! ToLower name) as [fieldName|] eqn:Hf; [|apply IH].
  cbn [bindEntries]. rewrite Hf.
  destruct values as [|value [|]]; try done.
  destruct (AssignField params fieldName value); [apply IH | done].
Qed.

Lemma targets_cons lookup entry entries :
  targets ToLower lookup (entry :: entries) =
  match lookup !! ToLower entry.1 with
  | Some f => f :: targets ToLower lookup entries
  | None => targets ToLower lookup entries
  end.
Proof. unfold targets. cbn [omap list_omap]. by destruct (lookup !! _). Qed.

Lemma targets_Permutation lookup l l' :
  l ≡ₚ l' -> targets ToLower lookup l ≡ₚ targets ToLower lookup l'.
Proof. intros H. unfold targets. by rewrite H. Qed.

Lemma bindEntries_permutation src lookup l l' :
  assignmentsCommute AssignField -> l ≡ₚ l' ->
  forall params result,
    NoDup (targets ToLower lookup l) ->
    bindEntries AssignField ToLower src lookup l params = inl result ->
    bindEntries AssignField ToLower src lookup l' params = inl result.
Proof.
  intros Hcomm. induction 1 as [|[name values] l l' Hperm IH
                                |[n1 vs1] [n2 vs2] l|l l' l'' H1 IH1 H2 IH2];
    intros params result Hnd.
  - done.
  - rewrite targets_cons in Hnd. cbn [bindEntries fst] in *.
    destruct (lookup !! ToLower name) as [f|]; [|by apply IH].
    apply NoDup_cons in Hnd as [_ Hnd].
    destruct values as [|value [|]]; try done.
    destruct (AssignField params f value); [by apply IH | done].
  - rewrite !targets_cons in Hnd. cbn [bindEntries fst] in *.
    destruct (lookup !! ToLower n1) as [f1|] eqn:Hf1;
      destruct (lookup !! ToLower n2) as [f2|] eqn:Hf2; try done.
    apply NoDup_cons in Hnd as [Hne _].
    apply not_elem_of_cons in Hne as [Hne _].
    destruct vs2 as [|v2 [|]]; try done.
    destruct (AssignField params f2 v2) as [params2|] eqn:H2; [|done].
    destruct vs1 as [|v1 [|]]; try done.
    destruct (AssignField params2 f1 v1) as [params21|] eqn:H21; [|done].
    destruct (Hcomm _ _ _ _ _ _ _ Hne H2 H21) as (params1 & -> & ->).
    done.
  - intros Hl. apply IH2; [|by apply IH1].
    by rewrite <- (targets_Permutation lookup _ _ H1).
Qed.

(** X10. The order in which Go ranges over the query or the header map
    does not matter to a pass that succeeds: when no two keys of the request
    are bound to the same field and assignments to different fields commute,
    a pass that returns a struct for one order returns the same struct for
    every order. *)
Theorem decode_order_irrelevant
    params tags lookup m entries entries' result :
  assignmentsCommute AssignField ->
  rangeOf m entries -> rangeOf m entries' ->
  NoDup (targets ToLower lookup entries) ->
  (tags !! QueryTag = Some lookup ->
   decodeQueryParameters AssignField ToLower QueryTag params tags entries
   = Done (inl result) ->
   decodeQueryParameters AssignField ToLower QueryTag params tags entries'
   = Done (inl result)) /\
  (tags !! HeaderTag = Some lookup ->
   decodeHeaderParameters AssignField ToLower HeaderTag params tags entries
   = Done (inl result) ->
   decodeHeaderParameters AssignField ToLower HeaderTag params tags entries'
   = Done (inl result)).
Proof.
  unfold rangeOf. intros Hcomm Hr Hr' Hnd.
  assert (entries ≡ₚ entries') as Hperm by (by rewrite Hr, Hr').
  unfold decodeQueryParameters, decodeHeaderParameters.
  split; intros ->; intros [= Hb];
    by rewrite (bindEntries_permutation _ lookup _ _ Hcomm Hperm _ _ Hnd Hb).
Qed.

(** X11. A path parameter whose value in the request is empty is skipped:
    the path pass gives what it gives on the names with a value, and with no
    value at all it returns the struct as it was and no error. *)
Theorem decodePathParameters_skips_empty
    params tags lookup rangeFields :
  tags !! PathTag = Some lookup ->
  decodePathParameters AssignField PathTag PathValue params tags rangeFields
  = Done (bindPath AssignField PathValue
            (List.filter
               (fun entry =>
                  negb (String.eqb (PathValue entry.1) EmptyString))
               (rangeFields lookup)) params) /\
  ((forall pathName, PathValue pathName = EmptyString) ->
   decodePathParameters AssignField PathTag PathValue params tags rangeFields
   = Done (inl params)).
Proof.
  intros Htag. unfold decodePathParameters. rewrite Htag.
  generalize (rangeFields lookup) as entries. intros entries. split.
  - f_equal. revert params.
    induction entries as [|[pathName field] entries IH];
      intros params; [done|].
    cbn [List.filter bindPath fst].
    destruct (String.eqb (PathValue pathName) EmptyString) eqn:He;
      cbn [negb]; [apply IH|].
    cbn [bindPath]. rewrite He.
    destruct (AssignField params field (PathValue pathName)); [apply IH|done].
  - intros Hall. f_equal.
    induction entries as [|[pathName field] entries IH]; [done|].
    cbn [bindPath]. by rewrite Hall.
Qed.

(** X12. [Decode] returns a struct only when it is the outcome of the four
    passes, run in the order body, query, headers, path, each on what the
    one before returned, and when validation accepts it. *)
Theorem Decode_returns_validated
    T params0 lookupKeys request rangeValues rangeFields params :
  Decode AssignField JSONDecode ToLower EqualFold CanonicalMIMEHeaderKey
    ContentType ContentTypeApplicationJson QueryTag HeaderTag PathTag
    Validate PathValue T params0 lookupKeys request rangeValues rangeFields
  = Done (inl params) ->
  Validate params = None /\
  isStruct T = true /\
  exists tags params1 params2 params3,
    lookupKeys = inl tags /\
    decodeJSONBodyParameters JSONDecode EqualFold CanonicalMIMEHeaderKey
      ContentType ContentTypeApplicationJson params0 request = inl params1 /\
    decodeQueryParameters AssignField ToLower QueryTag params1 tags
      (rangeValues (URLQuery request)) = Done (inl params2) /\
    decodeHeaderParameters AssignField ToLower HeaderTag params2 tags
      (rangeValues (Header request)) = Done (inl params3) /\
    decodePathParameters AssignField PathTag PathValue params3 tags
      rangeFields = Done (inl params).
Proof.
  unfold Decode, stage.
  destruct (isStruct T); [|done]. cbn [negb].
  destruct lookupKeys as [tags|err]; [|done]. cbn [bindR].
  destruct (decodeJSONBodyParameters _ _ _ _ _ params0 request)
    as [params1|] eqn:H1; [|done].
  destruct (decodeQueryParameters _ _ _ params1 tags _)
    as [[params2|]|] eqn:H2; try done. cbn [bindR].
  destruct (decodeHeaderParameters _ _ _ params2 tags _)
    as [[params3|]|] eqn:H3; try done. cbn [bindR].
  destruct (decodePathParameters _ _ _ params3 tags _)
    as [[params4|]|] eqn:H4; try done. cbn [bindR].
  destruct (Validate params4) eqn:Hv; [done|]. intros [= <-].
  split; [done|]. split; [done|]. by exists tags, params1, params2, params3.
Qed.

(** X13. A body that fails to decode fails the request, with the error of
    the body, whatever the query string, the headers and the path are. *)
Theorem Decode_body_failure_first
    T params0 tags request rangeValues rangeFields err :
  isStruct T = true ->
  decodeJSONBodyParameters JSONDecode EqualFold CanonicalMIMEHeaderKey
    ContentType ContentTypeApplicationJson params0 request = inr err ->
  forall query headers,
    Decode AssignField JSONDecode ToLower EqualFold CanonicalMIMEHeaderKey
      ContentType ContentTypeApplicationJson QueryTag HeaderTag PathTag
      Validate PathValue T params0 (inl tags)
      (mkRequest (Header request) query (Body request))
      rangeValues rangeFields
    = Done (inr (BodyFailure err)) /\
    (HeaderGet CanonicalMIMEHeaderKey headers ContentType
     = HeaderGet CanonicalMIMEHeaderKey (Header request) ContentType ->
     Decode AssignField JSONDecode ToLower EqualFold CanonicalMIMEHeaderKey
       ContentType ContentTypeApplicationJson QueryTag HeaderTag PathTag
       Validate PathValue T params0 (inl tags)
       (mkRequest headers query (Body request))
       rangeValues rangeFields
     = Done (inr (BodyFailure err))).
Proof.
  intros Hs Hbody query headers. unfold Decode, stage. rewrite Hs.
  unfold decodeJSONBodyParameters in *. cbn [Header Body negb] in *.
  split; [by rewrite Hbody|]. intros ->. by rewrite Hbody.
Qed.

End DecodeMoreFacts.

(** ** The binder on the toy struct *)

Lemma toyAssign_commute : assignmentsCommute toyAssign.
Proof.
  intros params f1 v1 f2 v2 params1 params12 Hne. unfold toyAssign.
  destruct (String.eqb v1 ""); [done|]. destruct (String.eqb v2 ""); [done|].
  intros [= <-] [= <-]. eexists. split; [done|].
  f_equal. by apply insert_insert_ne.
Qed.

Lemma toyEntries_range :
  rangeOf (list_to_map toyEntries) toyEntries /\
  rangeOf (list_to_map toyEntries) (reverse toyEntries).
Proof.
  assert (NoDup toyEntries.*1) as Hnd.
  { apply NoDup_cons. split; [|apply NoDup_singleton].
    by intros [=]%list_elem_of_singleton. }
  unfold rangeOf. rewrite (map_to_list_to_map _ Hnd).
  split; [done | apply reverse_Permutation].
Qed.

Lemma toyEntries_targets : NoDup (targets asciiToLower toyLookup toyEntries).
Proof.
  change (NoDup ["Limit"; "Offset"]).
  apply NoDup_cons. split; [|apply NoDup_singleton].
  by intros [=]%list_elem_of_singleton.
Qed.

Lemma decode_order_irrelevant_witness :
  decodeQueryParameters toyAssign asciiToLower "urlQuery" ∅ toyAllTags
    toyEntries
  = Done (inl (<["Offset" := "5"]> (<["Limit" := "10"]> ∅))) /\
  decodeQueryParameters toyAssign asciiToLower "urlQuery" ∅ toyAllTags
    (reverse toyEntries)
  = Done (inl (<["Offset" := "5"]> (<["Limit" := "10"]> ∅))).
Proof.
  assert (decodeQueryParameters toyAssign asciiToLower "urlQuery" ∅
            toyAllTags toyEntries
          = Done (inl (<["Offset" := "5"]> (<["Limit" := "10"]> ∅)))) as Hrun
    by reflexivity.
  split; [exact Hrun|].
  exact (proj1 (decode_order_irrelevant toyAssign asciiToLower
                  "urlQuery" "httpHeader" ∅ toyAllTags toyLookup _ _ _ _
                  toyAssign_commute (proj1 toyEntries_range)
                  (proj2 toyEntries_range) toyEntries_targets)
           eq_refl Hrun).
Defined.

Lemma decodePathParameters_skips_empty_witness :
  toyAllTags !! "urlPath" = Some {[ "id" := "ID" ]} /\
  decodePathParameters toyAssign "urlPath" (fun _ => EmptyString) ∅
    toyAllTags map_to_list
  = Done (inl ∅).
Proof.
  assert (toyAllTags !! "urlPath" = Some {[ "id" := "ID" ]}) as Htag
    by reflexivity.
  split; [exact Htag|].
  exact (proj2 (decodePathParameters_skips_empty toyAssign "urlPath"
                  (fun _ => EmptyString) ∅ toyAllTags _ map_to_list Htag)
           (fun _ => eq_refl)).
Defined.

Lemma Decode_returns_validated_witness :
  toyDecode (toyRequest ["text/plain"] "ignored")
  = Done (inl (<["Limit" := "10"]> ∅)) /\
  (fun _ : gmap string string => @None string) (<["Limit" := "10"]> ∅)
  = None.
Proof.
  assert (toyDecode (toyRequest ["text/plain"] "ignored")
          = Done (inl (<["Limit" := "10"]> ∅))) as Hrun by reflexivity.
  split; [exact Hrun|].
  exact (proj1 (Decode_returns_validated toyAssign toyJSONDecode asciiToLower
                  asciiEqualFold (fun key => key) "Content-Type"
                  "application/json" "urlQuery" "httpHeader" "urlPath"
                  (fun _ => None) (fun _ => EmptyString) _ _ _ _ _ _ _
                  Hrun)).
Defined.

Lemma Decode_body_failure_first_witness :
  isStruct structA = true /\
  decodeJSONBodyParameters toyJSONDecode asciiEqualFold (fun key => key)
    "Content-Type" "application/json" ∅
    (toyRequest ["application/json"] "junk")
  = inr (FailedToDecodeJSON "unexpected body") /\
  toyDecode (mkRequest (Header (toyRequest ["application/json"] "junk")) ∅
               "junk")
  = Done (inr (BodyFailure (FailedToDecodeJSON "unexpected body"))).
Proof.
  assert (decodeJSONBodyParameters toyJSONDecode asciiEqualFold
            (fun key => key) "Content-Type" "application/json" ∅
            (toyRequest ["application/json"] "junk")
          = inr (FailedToDecodeJSON "unexpected body")) as Hbody
    by reflexivity.
  split; [reflexivity|]. split; [exact Hbody|].
  exact (proj1 (Decode_body_failure_first toyAssign toyJSONDecode asciiToLower
                  asciiEqualFold (fun key => key) "Content-Type"
                  "application/json" "urlQuery" "httpHeader" "urlPath"
                  (fun _ => None) (fun _ => EmptyString) structA ∅ toyAllTags
                  _ map_to_list map_to_list _ eq_refl Hbody ∅ ∅)).
Defined.

(** ** The environment loader *)

Section EnvProcessorFacts.
Context {C : Type}.
Variable AssignField : C -> string -> string -> C + string.
Variable CamelToSnake : string -> string.
Variable Validate : C -> option string.

(** X14. The loader reads the environment at the names it computes for the
    fields it visits, and nowhere else: two environments that agree on these
    names give the same outcome. With a prefix, a variable that bears the
    bare name of a field is therefore not used. *)
Theorem processFields_reads_computed_names cfg env env' entries conf :
  (forall fieldName fieldMetadata,
      (fieldName, fieldMetadata) ∈ entries ->
      env !! formattedEnvName CamelToSnake cfg fieldName
      = env' !! formattedEnvName CamelToSnake cfg fieldName) ->
  processFields AssignField CamelToSnake cfg env entries conf =
  processFields AssignField CamelToSnake cfg env' entries conf.
Proof.
  revert conf. induction entries as [|[fieldName md] entries IH];
    intros conf Hagree; [done|].
  assert (forall conf',
            processFields AssignField CamelToSnake cfg env entries conf' =
            processFields AssignField CamelToSnake cfg env' entries conf')
    as IH'.
  { intros conf'. apply IH. intros f m Hin. apply (Hagree f m). by right. }
  cbn [processFields].
  rewrite <- (Hagree fieldName md) by (by left).
  destruct (Tags md !! FormatTag); [|apply IH'].
  destruct (String.eqb _ FormatTypeSnake); [|done].
  destruct (env !! _).
  - destruct (AssignField conf fieldName _); [apply IH' | done].
  - destruct (Tags md !! DefaultTag); [|apply IH'].
    destruct (AssignField conf fieldName _); [apply IH' | done].
Qed.

(** X15. A field without the format tag is left alone, whatever the
    environment holds and whatever its other tags are: the loop gives what
    it gives on the fields that have the tag. *)
Theorem processFields_ignores_untagged cfg env entries conf :
  processFields AssignField CamelToSnake cfg env entries conf =
  processFields AssignField CamelToSnake cfg env
    (List.filter
       (fun entry => bool_decide (is_Some (Tags entry.2 !! FormatTag)))
       entries) conf.
Proof.
  revert conf. induction entries as [|[fieldName md] entries IH];
    intros conf; [done|].
  cbn [List.filter snd].
  destruct (Tags md !! FormatTag) as [formatValue|] eqn:Hf.
  - rewrite bool_decide_eq_true_2 by (by eexists).
    cbn [processFields]. rewrite Hf.
    destruct (String.eqb _ FormatTypeSnake); [|done].
    destruct (env !! _).
    + destruct (AssignField conf fieldName _); [apply IH | done].
    + destruct (Tags md !! DefaultTag); [|apply IH].
      destruct (AssignField conf fieldName _); [apply IH | done].
  - rewrite bool_decide_eq_false_2 by (by intros [? ?]).
    cbn [processFields]. rewrite Hf. apply IH.
Qed.


(** X17. When every field that carries a format tag has the format [snake],
    no variable of its name in the environment and no default tag, nothing
    is assigned: the loop returns the struct as it was. A field without a
    format tag is passed over whatever the environment holds. *)
Theorem processFields_nothing_to_assign cfg env entries conf :
  (forall fieldName fieldMetadata formatValue,
      (fieldName, fieldMetadata) ∈ entries ->
      Tags fieldMetadata !! FormatTag = Some formatValue ->
      formatValue = FormatTypeSnake /\
      env !! formattedEnvName CamelToSnake cfg fieldName = None /\
      Tags fieldMetadata !! DefaultTag = None) ->
  processFields AssignField CamelToSnake cfg env entries conf
  = Done (inl conf).
Proof.
  induction entries as [|[fieldName md] entries IH]; intros Hall; [done|].
  assert (processFields AssignField CamelToSnake cfg env entries conf
          = Done (inl conf)) as IH'.
  { apply IH. intros f m v Hin. apply Hall. by right. }
  pose proof (Hall fieldName md) as Hhere.
  cbn [processFields].
  destruct (Tags md !! FormatTag) as [formatValue|]; [|done].
  destruct (Hhere formatValue ltac:(by left) eq_refl) as (-> & Henv & Hdef).
  change (String.eqb FormatTypeSnake FormatTypeSnake) with true. cbn iota.
  by rewrite Henv, Hdef.
Qed.

(** X18. The loader returns a configuration only when the metadata of the
    type could be extracted, the loop over the fields of the table returned
    it and validation accepts it; the options are applied in order, the last
    prefix given being the one in use. *)
Theorem ProcessAndValidate_returns_validated
    T opts pfx env iterate conf0 conf :
  ProcessAndValidate AssignField CamelToSnake Validate T
    (opts ++ [WithPrefix pfx]) env iterate conf0 = Done (inl conf) ->
  Validate conf = None /\
  exists tbl,
    StructMetadata T = Done tbl /\
    processFields AssignField CamelToSnake (mkConfig pfx) env (iterate tbl)
      conf0
    = Done (inl conf).
Proof.
  unfold ProcessAndValidate, applyOptions.
  rewrite fold_left_app. cbn [fold_left WithPrefix].
  destruct (StructMetadata T) as [tbl|]; [|done]. cbn [bindR].
  destruct (processFields _ _ _ _ _ _) as [[conf'|]|] eqn:Hloop; try done.
  cbn [bindR]. destruct (Validate conf') eqn:Hv; [done|].
  intros [= <-]. split; [done|]. by exists tbl.
Qed.

End EnvProcessorFacts.

(** ** The loader on the toy configuration *)

Lemma processFields_reads_computed_names_witness :
  processFields digitsAssign (fun name => name) (mkConfig "PREFIX")
    {[ "Value" := "2" ]} configEntries ∅
  = processFields digitsAssign (fun name => name) (mkConfig "PREFIX")
      ∅ configEntries ∅.
Proof.
  apply (processFields_reads_computed_names digitsAssign (fun name => name)
           (mkConfig "PREFIX") {[ "Value" := "2" ]} ∅ configEntries ∅).
  intros fieldName fieldMetadata Hin.
  apply elem_of_cons in Hin as [Heq | Hin].
  - injection Heq as -> _. reflexivity.
  - apply list_elem_of_singleton in Hin. injection Hin as -> _. reflexivity.
Defined.


Lemma processFields_nothing_to_assign_witness :
  processFields digitsAssign (fun name => name) (mkConfig "APP")
    {[ "APP_HOST" := "h"; "APP_Other" := "7" ]} noDefaultEntries ∅
  = Done (inl ∅).
Proof.
  apply (processFields_nothing_to_assign digitsAssign (fun name => name)
           (mkConfig "APP") {[ "APP_HOST" := "h"; "APP_Other" := "7" ]}
           noDefaultEntries ∅).
  intros fieldName fieldMetadata formatValue Hin Hformat.
  apply list_elem_of_In in Hin.
  destruct Hin as [Hin|[Hin|[]]]; injection Hin as <- <-.
  - injection Hformat as <-. by vm_compute.
  - discriminate Hformat.
Defined.

Lemma ProcessAndValidate_returns_validated_witness :
  toyProcess configStruct ([WithPrefix "A"] ++ [WithPrefix "PREFIX"])
    {[ "Value" := "2" ]}
  = Done (inl {[ "Value" := "1" ]}) /\
  (fun _ : gmap string string => @None string) {[ "Value" := "1" ]} = None.
Proof.
  assert (toyProcess configStruct ([WithPrefix "A"] ++ [WithPrefix "PREFIX"])
            {[ "Value" := "2" ]}
          = Done (inl {[ "Value" := "1" ]})) as Hrun by reflexivity.
  split; [exact Hrun|].
  exact (proj1 (ProcessAndValidate_returns_validated digitsAssign
                  (fun name => name) (fun _ => None) configStruct
                  [WithPrefix "A"] "PREFIX" _ _ _ _ Hrun)).
Defined.

(** ** Metadata extraction: what does not matter *)

(** X19. The tag of an anonymous field is never read: changing it changes
    neither the table nor the panic. *)
Theorem StructMetadata_embedded_tag_unread c before after name t tg tg' :
  StructMetadata (TStruct c (before ++ mkField name t tg true :: after))
  = StructMetadata (TStruct c (before ++ mkField name t tg' true :: after)).
Proof.
  by rewrite !StructMetadata_scan, !events_struct, !fieldsEvents_app,
    !fieldsEvents_cons.
Qed.

Lemma fieldsEvents_Permutation chain fs fs' :
  fs ≡ₚ fs' -> fieldsEvents chain fs ≡ₚ fieldsEvents chain fs'.
Proof.
  induction 1 as [|f fs fs' _ IH|f g fs|fs fs' fs'' _ IH1 _ IH2].
  - done.
  - rewrite !fieldsEvents_cons. by rewrite IH.
  - rewrite !fieldsEvents_cons. apply Permutation_app_swap_app.
  - by rewrite IH1.
Qed.

(** X20. The table does not depend on the order in which the fields of the
    struct are declared: when the extraction returns a table for a struct,
    it returns the same table for the struct with its fields in any other
    order. *)
Theorem StructMetadata_field_order c fs fs' tbl :
  fs ≡ₚ fs' ->
  StructMetadata (TStruct c fs) = Done tbl ->
  StructMetadata (TStruct c fs') = Done tbl.
Proof.
  intros Hperm (Hs & Hnd & ->)%StructMetadata_Done_iff.
  assert (events (TStruct c fs) [] ≡ₚ events (TStruct c fs') []) as Hev
    by (rewrite !events_struct; by apply fieldsEvents_Permutation).
  assert (leaves (TStruct c fs) [] ≡ₚ leaves (TStruct c fs') []) as Hleaves
    by (unfold leaves; by rewrite Hev).
  apply StructMetadata_Done_iff. split; [|split].
  - apply (structural_allSome _ []). apply (structural_allSome _ []) in Hs.
    unfold allSome in *. by rewrite <- Hev.
  - unfold leafNames in *. by rewrite <- Hleaves.
  - by apply list_to_map_proper.
Qed.

Lemma StructMetadata_field_order_witness :
  [field "X" TString; embedded "A" selfNamed]
  ≡ₚ [embedded "A" selfNamed; field "X" TString] /\
  StructMetadata
    (TStruct PlainStruct [embedded "A" selfNamed; field "X" TString])
  = Done (tableOf
            (TStruct PlainStruct [field "X" TString; embedded "A" selfNamed])).
Proof.
  assert ([field "X" TString; embedded "A" selfNamed]
          ≡ₚ [embedded "A" selfNamed; field "X" TString]) as Hperm
    by apply perm_swap.
  split; [exact Hperm|].
  exact (StructMetadata_field_order PlainStruct _ _ _ Hperm eq_refl).
Defined.

(** ** The test assertions *)

Lemma prefix_refl s : String.prefix s s = true.
Proof.
  induction s as [|c s IH]; [done|].
  cbn [String.prefix]. by destruct (ascii_dec c c).
Qed.

Lemma Contains_refl s : stringsContains s s = true.
Proof. destruct s; cbn [stringsContains]; by rewrite prefix_refl. Qed.

Lemma Contains_empty s : stringsContains s EmptyString = true.
Proof. by destruct s. Qed.

(** X21. The panic assertions are ordered: when [PanicExact] passes for a
    message, [PanicPart] passes for the same message, and when [PanicPart]
    passes, [Panic] passes. *)
Theorem PanicExact_PanicPart_Panic (r : Recovered) (msg : string) :
  (PanicExact r msg = None -> PanicPart r msg = None) /\
  (PanicPart r msg = None -> Panic r = None).
Proof.
  unfold PanicExact, PanicPart, Panic, assertPanic.
  destruct r as [|s|s|]; cbn [negb]; try done; split; try done.
  - destruct (String.eqb_spec s msg) as [-> | Hne]; [|done].
    cbn [negb]. by rewrite Contains_refl.
  - destruct (String.eqb_spec s msg) as [-> | Hne]; [|done].
    cbn [negb]. by rewrite Contains_refl.
Qed.

(** X22. A panic whose value is neither a string nor an error passes
    [Panic] but fails [PanicExact] and [PanicPart] for every message, the
    empty one included; with the empty part, [PanicPart] passes exactly for
    a panic with a string or an error. *)
Theorem PanicPart_needs_text (r : Recovered) :
  (forall msg, PanicExact PanicOther msg <> None /\
               PanicPart PanicOther msg <> None) /\
  Panic PanicOther = None /\
  (PanicPart r EmptyString = None <->
   exists text, r = PanicString text \/ r = PanicError text).
Proof.
  split; [done|]. split; [done|].
  unfold PanicPart, assertPanic.
  destruct r as [|s|s|]; cbn [negb]; rewrite ?Contains_empty; cbn [negb].
  - split; [done|]. by intros [? [? | ?]].
  - split; [|done]. intros _. exists s. by left.
  - split; [|done]. intros _. exists s. by right.
  - split; [done|]. by intros [? [? | ?]].
Qed.

(** X23. The error assertions are ordered and complementary: when
    [ErrorExact] passes for a message, [ErrorPart] passes for it, when
    [ErrorPart] passes, [Error] passes, and [NoError] passes exactly when
    [Error] fails. *)
Theorem ErrorExact_ErrorPart_Error (err : option string) (msg : string) :
  (ErrorExact err msg = None -> ErrorPart err msg = None) /\
  (ErrorPart err msg = None -> Error err = None) /\
  (NoError err = None <-> Error err <> None).
Proof.
  unfold ErrorExact, ErrorPart, Error, NoError.
  destruct err as [text|]; [|by repeat split].
  split; [|by repeat split].
  destruct (String.eqb_spec msg text) as [-> | Hne]; [|done].
  cbn [negb]. by rewrite Contains_refl.
Qed.
